(** * Performance portability ([p3.metrics.pp]) over a shallow embedding

    The development embeds [src/p3/metrics/_pp.py]: the function [pp] and
    its helper [_hmean], together with the few pandas and [statistics]
    operations they call, and proves properties of the table-to-table
    transform.

    Conventions of the embedding.
    - A float is a rational [Q]; a pandas null (NaN / None) is the cell
      [Null].  Binary64 rounding, infinities and signed zeros are not
      represented.  The properties proved below rest on the branches of the
      harmonic mean that do no arithmetic (a single value, a zero among the
      values), so they do not depend on rounding; the bound of the values
      by 0 and 1 uses the arithmetic only through inequalities that a
      monotone rounding keeps (1 / x is at least 1 for x at most 1, and
      n / t at most 1 for t at least n).
    - The labels in the columns "problem", "platform" and "application"
      are strings.
    - A table is a list of column labels and a list of records; a record
      has the three labels and the two efficiency cells.  Other columns
      (a figure of merit, say) are dropped by [df[key + efficiencies]]
      before they are read and have no field.
    - A raised exception is the [Raise] branch of [result].
    - The sources do not say which pandas they run on, and the versions
      differ on a table without rows; [pp] takes the behaviour of the
      pandas as an argument, and the properties hold for either.
    - [_require_columns], [_require_numeric] and [_sort_by_app_order] live
      in [p3._utils], which is not among the sources; they are modelled
      from the specification and marked so. *)

From Stdlib Require Import List String Ascii Bool Arith Lia.
From Stdlib Require Import ZArith QArith Lqa Permutation Sorted.
Import ListNotations.

Local Open Scope string_scope.
Local Open Scope list_scope.

(** ** Exceptions and the result monad *)

Inductive exn : Type :=
| ValueError (msg : string)
| TypeError (msg : string)
| StatisticsError (msg : string).

Inductive result (A : Type) : Type :=
| Ok (a : A)
| Raise (e : exn).

Arguments Ok {A} a.
Arguments Raise {A} e.

Definition bind {A B : Type} (m : result A) (k : A -> result B) : result B :=
  match m with
  | Ok a => k a
  | Raise e => Raise e
  end.

Notation "x <- m ;; k" := (bind m (fun x => k))
  (at level 61, m at next level, right associativity).
Notation "m ;;; k" := (bind m (fun _ => k))
  (at level 61, right associativity).

(** [for x in l: body(x)], where the body may raise. *)
Fixpoint for_each {A : Type} (body : A -> result unit) (l : list A) : result unit :=
  match l with
  | [] => Ok tt
  | x :: t => body x ;;; for_each body t
  end.

(** [[f(x) for x in l]], where [f] may raise. *)
Fixpoint map_result {A B : Type} (f : A -> result B) (l : list A) : result (list B) :=
  match l with
  | [] => Ok []
  | x :: t => y <- f x ;; ys <- map_result f t ;; Ok (y :: ys)
  end.

(** ** Tables *)

(** The content of one cell of an efficiency column. *)
Inductive cell : Type :=
| Null
| Num (q : Q)
| NonNumeric (s : string).

(** One record of a table.  The field of a column that the table does not
    have is never read. *)
Record Row : Type := mkRow {
  problem : string;
  platform : string;
  application : string;
  app_eff : cell;
  arch_eff : cell
}.

Record DataFrame : Type := mkDataFrame {
  columns : list string;
  rows : list Row
}.

(** [column in df] *)
Definition has_column (df : DataFrame) (column : string) : bool :=
  existsb (String.eqb column) (columns df).

(** [df[eff]] for an efficiency column, row by row; [eff] is "app eff" or
    "arch eff". *)
Definition get (eff : string) (r : Row) : cell :=
  if eff =? "app eff" then app_eff r else arch_eff r.

(** One record of the result: the pp value of an efficiency column that
    was not in the input is [None] (the result has no such column). *)
Record PPRow : Type := mkPPRow {
  pp_problem : string;
  pp_application : string;
  app_pp : option Q;
  arch_pp : option Q
}.

Record PPFrame : Type := mkPPFrame {
  pp_columns : list string;
  pp_rows : list PPRow
}.

(** ** Comparisons on floats *)

Definition Qlt_bool (x y : Q) : bool := negb (Qle_bool y x).

(** [Series.between(lo, hi)], inclusive on both sides. *)
Definition between (lo hi x : Q) : bool := Qle_bool lo x && Qle_bool x hi.

(** [fillna(v)] on one cell, read as a float.  A non-numeric cell does not
    reach it: in [pp] the call of [_require_numeric] comes first. *)
Definition fillna (v : Q) (c : cell) : Q :=
  match c with
  | Num q => q
  | _ => v
  end.

(** ** [statistics.harmonic_mean]

    As in CPython 3.10 and later.  The sum of the reciprocals is exact
    there (it is a sum of fractions), and so it is here; the last test,
    which earlier versions do not have, never fails on non-negative
    values. *)

Inductive reciprocal_sum : Type :=
| NegativeValue
| ZeroDivision
| Total (total : Q).

(** [_sum(1 / x for x in _fail_neg(data))]: the generator is consumed from
    the left, so the first negative or zero value decides how it ends. *)
Fixpoint sum_reciprocals (data : list Q) (acc : Q) : reciprocal_sum :=
  match data with
  | [] => Total acc
  | x :: t =>
      if Qlt_bool x 0 then NegativeValue
      else if Qeq_bool x 0 then ZeroDivision
      else sum_reciprocals t (acc + 1 / x)
  end.

Definition harmonic_mean (data : list Q) : result Q :=
  match data with
  | [] => Raise (StatisticsError "harmonic_mean requires at least one data point")
  | [x] =>
      if Qlt_bool x 0
      then Raise (StatisticsError "harmonic mean does not support negative values")
      else Ok x
  | _ =>
      match sum_reciprocals data 0 with
      | NegativeValue =>
          Raise (StatisticsError "harmonic mean does not support negative values")
      | ZeroDivision => Ok 0
      | Total total =>
          if Qle_bool total 0
          then Raise (StatisticsError "Weighted sum must be positive")
          else Ok (inject_Z (Z.of_nat (List.length data)) / total)
      end
  end%Q.

(** [_hmean(series)]; the integer 0 that [harmonic_mean] returns for a zero
    value becomes the float 0.0 when [pp] casts the column to float64. *)
Definition _hmean (series : list Q) : result Q := harmonic_mean series.

(** ** [unique], [groupby] and [itertools.product] *)

Section Grouping.
Context {K : Type}.
Variable eqb : K -> K -> bool.
Variable leb : K -> K -> bool.

(** [Series.unique()]: the distinct values, in order of first occurrence. *)
Fixpoint unique (l : list K) : list K :=
  match l with
  | [] => []
  | x :: t => x :: filter (fun y => negb (eqb y x)) (unique t)
  end.

Fixpoint insert_sorted (k : K) (l : list K) : list K :=
  match l with
  | [] => [k]
  | k' :: t => if leb k k' then k :: l else k' :: insert_sorted k t
  end.

(** Insertion sort; an element goes in front of the elements it is
    [leb] to, so equal elements keep their order (the sort is stable). *)
Definition stable_sort (l : list K) : list K := fold_right insert_sorted [] l.

(** [groupby(key)] with pandas' default [sort=True]: the groups come in
    increasing key order, and inside a group the rows keep the order they
    have in the table. *)
Definition groupby {R : Type} (key : R -> K) (table : list R) : list (K * list R) :=
  map (fun k => (k, filter (fun r => eqb (key r) k) table))
      (stable_sort (unique (map key table))).
End Grouping.

Definition pair_eqb (a b : string * string) : bool :=
  (fst a =? fst b) && (snd a =? snd b).

Definition pair_leb (a b : string * string) : bool :=
  match String.compare (fst a) (fst b) with
  | Lt => true
  | Gt => false
  | Eq => String.leb (snd a) (snd b)
  end.

Definition triple_eqb (a b : string * string * string) : bool :=
  pair_eqb (fst a) (fst b) && (snd a =? snd b).

Definition triple_leb (a b : string * string * string) : bool :=
  if pair_eqb (fst a) (fst b) then String.leb (snd a) (snd b)
  else pair_leb (fst a) (fst b).

(** The key [["problem", "platform", "application"]] of a row. *)
Definition key3 (r : Row) : string * string * string :=
  (problem r, platform r, application r).

(** The key [["problem", "application"]] of a row. *)
Definition key2 (r : Row) : string * string :=
  (problem r, application r).

(** [itertools.product(ps, hs, as)]: the last factor varies fastest. *)
Definition product3 (ps hs apps : list string) : list (string * string * string) :=
  flat_map (fun p => flat_map (fun h => map (fun a => (p, h, a)) apps) hs) ps.

(** ** The steps of [pp] *)

(** Modelled from the spec: [_require_columns] of [p3._utils] is not part of
    the sources at hand.  It confirms that every named column exists and
    fails on the first one that does not; the exception class is the one the
    docstring of [pp] gives for a missing column. *)
Definition _require_columns (df : DataFrame) (required : list string) : result unit :=
  for_each (fun column =>
              if has_column df column then Ok tt
              else Raise (ValueError ("DataFrame does not contain a column named '" ++ column ++ "'")))
           required.

Definition is_numeric (c : cell) : bool :=
  match c with
  | NonNumeric _ => false
  | _ => true
  end.

(** Modelled from the spec: [_require_numeric] of [p3._utils] is not part of
    the sources at hand.  For each named column it confirms that every
    non-null value is numeric and fails, naming the column, otherwise; the
    exception class is the one the docstring of [pp] gives. *)
Definition _require_numeric (df : DataFrame) (required : list string) : result unit :=
  for_each (fun column =>
              if forallb (fun r => is_numeric (get column r)) (rows df) then Ok tt
              else Raise (TypeError ("Column '" ++ column ++ "' must contain only numeric values.")))
           required.

(** The efficiency columns the table has, "app eff" first. *)
Definition efficiencies_of (df : DataFrame) : list string :=
  (if has_column df "app eff" then ["app eff"] else []) ++
  (if has_column df "arch eff" then ["arch eff"] else []).

(** [df[eff].fillna(0).between(0, 1).all()] *)
Definition in_range (df : DataFrame) (eff : string) : bool :=
  forallb (fun r => between 0 1 (fillna 0 (get eff r))) (rows df).

(** The loop that rejects efficiencies given in percentages. *)
Definition check_range (df : DataFrame) (efficiencies : list string) : result unit :=
  for_each (fun eff =>
              if negb (in_range df eff)
              then Raise (ValueError (eff ++ " must in range [0, 1]"))
              else Ok tt)
           efficiencies.

(** The "max" aggregation of one column of one group: nulls are skipped,
    and a group of nulls only gives a null.  The cells that reach it are
    numeric or null, [_require_numeric] having rejected any other table. *)
Fixpoint agg_max (values : list cell) : cell :=
  match values with
  | [] => Null
  | c :: t =>
      match c, agg_max t with
      | Num x, Num y => Num (if Qle_bool x y then y else x)
      | Num x, _ => Num x
      | _, m => m
      end
  end.

Definition selected (efficiencies : list string) (eff : string) : bool :=
  existsb (String.eqb eff) efficiencies.

(** [df[key + efficiencies].groupby(key).agg("max")] followed by
    [reset_index]: one row per key; a column that was not selected holds
    nothing. *)
Definition max_per_key (efficiencies : list string) (table : list Row) : list Row :=
  map (fun kg : string * string * string * list Row =>
         let '(p, h, a, g) := kg in
         let column eff :=
           if selected efficiencies eff then agg_max (map (get eff) g) else Null in
         mkRow p h a (column "app eff") (column "arch eff"))
      (groupby triple_eqb triple_leb key3 table).

(** [df.loc[(df["problem"] == problem) & (df["platform"] == platform)
            & (df["application"] == application)]] *)
Definition slice (table : list Row) (combination : string * string * string) : list Row :=
  let '(p, h, a) := combination in
  filter (fun r => (problem r =? p) && (platform r =? h) && (application r =? a)) table.

Definition empty {A : Type} (l : list A) : bool :=
  match l with
  | [] => true
  | _ => false
  end.

(** The "did not run" rows: one for every combination of the distinct
    problems, platforms and applications that has no row in the table,
    with [None] for both efficiencies. *)
Definition did_not_run (table : list Row) : list Row :=
  flat_map (fun combination : string * string * string =>
              let '(p, h, a) := combination in
              if empty (slice table combination) then [mkRow p h a Null Null] else [])
           (product3 (unique String.eqb (map problem table))
                     (unique String.eqb (map platform table))
                     (unique String.eqb (map application table))).

(** [pd.concat([df, pd.DataFrame(rows)], ignore_index=True)] *)
Definition complete (table : list Row) : list Row := table ++ did_not_run table.

(** [df[eff].astype(float).fillna(0.0)] restricted to one group. *)
Definition filled (eff : string) (g : list Row) : list Q :=
  map (fun r => fillna 0 (get eff r)) g.

(** The [_hmean] aggregation of one group.  pandas evaluates the columns one
    after the other; the two columns do not influence each other. *)
Definition hmean_of_group (efficiencies : list string)
    (kg : string * string * list Row) : result PPRow :=
  let '(p, a, g) := kg in
  let column eff :=
    if selected efficiencies eff
    then v <- _hmean (filled eff g) ;; Ok (Some v)
    else Ok None in
  app <- column "app eff" ;;
  arch <- column "arch eff" ;;
  Ok (mkPPRow p a app arch).

(** [str.replace(old, new)] for a non-empty [old]; [skip] counts the
    characters of a match that are still to be dropped. *)
Fixpoint replace_from (old new s : string) (skip : nat) : string :=
  match s with
  | EmptyString => EmptyString
  | String c t =>
      match skip with
      | S n => replace_from old new t n
      | O =>
          if String.prefix old s
          then new ++ replace_from old new t (String.length old - 1)
          else String c (replace_from old new t 0)
      end
  end.

Definition replace (old new s : string) : string := replace_from old new s 0.

(** Position of an application in the captured order; an application that
    is not in it sorts last. *)
Fixpoint index_of (a : string) (order : list string) : nat :=
  match order with
  | [] => 0
  | x :: t => if x =? a then 0 else S (index_of a t)
  end.

(** Modelled from the spec: [_sort_by_app_order] of [p3._utils] is not part
    of the sources at hand.  It stable-sorts the rows of the result by the
    position of their application in the captured order, so that rows of
    one application stay in the order the aggregation produced them. *)
Definition _sort_by_app_order (table : list PPRow) (app_order : list string) : list PPRow :=
  stable_sort (fun r1 r2 =>
                 index_of (pp_application r1) app_order <=?
                 index_of (pp_application r2) app_order)%nat
              table.

(** ** [pp] *)

(** The pandas in use.  The versions differ in what [groupby(key).agg(f)]
    returns for a table without any group.  In some (1.5 to 2.2) the
    result keeps the key columns, so that the [reset_index] which follows
    finds "application" among the columns and raises; in others (3.x) the
    keys are in the index only and [reset_index] returns.  The sources pin
    no version, so [pp] takes the behaviour as an argument.  With at least
    one group the versions agree. *)
Inductive pandas : Type :=
| KeepsKeyColumns
| KeysInIndexOnly.

(** [pp.reset_index(inplace=True)] on the result of [groups.agg(_hmean)]. *)
Definition reset_index_after_agg (lib : pandas) (aggregated : list PPRow) : result unit :=
  match lib, aggregated with
  | KeepsKeyColumns, [] => Raise (ValueError "cannot insert application, already exists")
  | _, _ => Ok tt
  end.

Definition pp (lib : pandas) (df : DataFrame) : result PPFrame :=
  _require_columns df ["problem"; "platform"; "application"] ;;;
  let efficiencies := efficiencies_of df in
  if (List.length efficiencies =? 0)%nat
  then Raise (ValueError "DataFrame must contain a column named 'arch eff' or 'app eff'.")
  else
    _require_numeric df efficiencies ;;;
    check_range df efficiencies ;;;
    let app_order := unique String.eqb (map application (rows df)) in
    let deduplicated := max_per_key efficiencies (rows df) in
    let completed := complete deduplicated in
    aggregated <- map_result (hmean_of_group efficiencies)
                             (groupby pair_eqb pair_leb key2 completed) ;;
    reset_index_after_agg lib aggregated ;;;
    Ok (mkPPFrame (["problem"; "application"] ++ map (replace "eff" "pp") efficiencies)
                  (_sort_by_app_order aggregated app_order)).

(** ** [pp] and the table of the caller

    [pp] assigns to its local name [df] three times and changes the table
    that [df] names twice ([reset_index(inplace=True)] at line 92, the
    assignment to [df[efficiencies]] at line 120).  Whether a run changes
    the table of the caller depends on what [df] is bound to at those
    lines.  The store below holds the table of the caller; a name is bound
    to that table or to a table that [pp] made itself. *)

Inductive binding : Type :=
| Caller
| Fresh (table : list Row).

(** A computation that reads and may write the table of the caller, and
    may raise. *)
Definition St (A : Type) : Type := DataFrame -> DataFrame * result A.

Definition st_ret {A : Type} (a : A) : St A := fun store => (store, Ok a).

Definition st_bind {A B : Type} (m : St A) (k : A -> St B) : St B :=
  fun store =>
    match m store with
    | (store', Ok a) => k a store'
    | (store', Raise e) => (store', Raise e)
    end.

Notation "x <~ m ;; k" := (st_bind m (fun x => k))
  (at level 61, m at next level, right associativity).

(** A step that reads its arguments only. *)
Definition st_lift {A : Type} (m : result A) : St A := fun store => (store, m).

(** The table a name is bound to, as it is now. *)
Definition table_of (b : binding) : St DataFrame :=
  fun store =>
    (store, Ok match b with
               | Caller => store
               | Fresh t => mkDataFrame (columns store) t
               end).

(** An operation that changes the table a name is bound to; the name stays
    bound to the same table. *)
Definition in_place (f : list Row -> list Row) (b : binding) : St binding :=
  fun store =>
    match b with
    | Caller => (mkDataFrame (columns store) (f (rows store)), Ok Caller)
    | Fresh t => (store, Ok (Fresh (f t)))
    end.

(** [reset_index(inplace=True)] on the result of the "max" aggregation: the
    keys move from the index to the columns; a record holds them either
    way. *)
Definition reset_index (table : list Row) : list Row := table.

(** [df[efficiencies] = df[efficiencies].astype(float).fillna(0.0)], one
    row of it: the cells of the efficiency columns in use become floats,
    0.0 for a null. *)
Definition fill (efficiencies : list string) (r : Row) : Row :=
  mkRow (problem r) (platform r) (application r)
        (if selected efficiencies "app eff" then Num (fillna 0 (app_eff r)) else app_eff r)
        (if selected efficiencies "arch eff" then Num (fillna 0 (arch_eff r)) else arch_eff r).

(** [pp], line by line, with the table of the caller in the store. *)
Definition pp_st (lib : pandas) : St PPFrame :=
  let df := Caller in
  input <~ table_of df ;;
  _ <~ st_lift (_require_columns input ["problem"; "platform"; "application"]) ;;
  let efficiencies := efficiencies_of input in
  if (List.length efficiencies =? 0)%nat
  then st_lift (Raise (ValueError "DataFrame must contain a column named 'arch eff' or 'app eff'."))
  else
    _ <~ st_lift (_require_numeric input efficiencies) ;;
    _ <~ st_lift (check_range input efficiencies) ;;
    let app_order := unique String.eqb (map application (rows input)) in
    let df := Fresh (max_per_key efficiencies (rows input)) in
    df <~ in_place reset_index df ;;
    deduplicated <~ table_of df ;;
    let df := Fresh (complete (rows deduplicated)) in
    df <~ in_place (map (fill efficiencies)) df ;;
    completed <~ table_of df ;;
    aggregated <~ st_lift (map_result (hmean_of_group efficiencies)
                             (groupby pair_eqb pair_leb key2 (rows completed))) ;;
    _ <~ st_lift (reset_index_after_agg lib aggregated) ;;
    st_ret (mkPPFrame (["problem"; "application"] ++ map (replace "eff" "pp") efficiencies)
                      (_sort_by_app_order aggregated app_order)).

(** The table [pp] holds after the "max" step, and after the "did not run"
    rows are added. *)
Definition deduplicated (df : DataFrame) : list Row :=
  max_per_key (efficiencies_of df) (rows df).

Definition completed (df : DataFrame) : list Row := complete (deduplicated df).

(** The pp column that [pp] derives from the efficiency column [eff]. *)
Definition pp_get (eff : string) (r : PPRow) : option Q :=
  if replace "eff" "pp" eff =? "app pp" then app_pp r else arch_pp r.

(** The key of a row of the result. *)
Definition pp_key (r : PPRow) : string * string := (pp_problem r, pp_application r).

(** What a row says about one efficiency column: its key and its cell; and
    what a row of the result says about the pp column derived from it. *)
Definition keyed (eff : string) (r : Row) : string * string * string * cell :=
  (key3 r, get eff r).

Definition pp_keyed (eff : string) (r : PPRow) : string * string * option Q :=
  (pp_key r, pp_get eff r).

(** ** Valid input tables

    A table is valid when it has the three key columns and at least one
    efficiency column, and every cell of an efficiency column it has is null
    or a number of [[0, 1]]. *)

Definition cell_ok (c : cell) : bool :=
  match c with
  | Null => true
  | Num q => between 0 1 q
  | NonNumeric _ => false
  end.

Definition valid_table (df : DataFrame) : bool :=
  has_column df "problem" && has_column df "platform" && has_column df "application"
  && negb (empty (efficiencies_of df))
  && forallb (fun eff => forallb (fun r => cell_ok (get eff r)) (rows df))
             (efficiencies_of df).

(** The same, as the facts a proof uses. *)
Record validated (df : DataFrame) : Prop := {
  v_problem : has_column df "problem" = true;
  v_platform : has_column df "platform" = true;
  v_application : has_column df "application" = true;
  v_some_eff : efficiencies_of df <> [];
  v_cells : forall eff r, In eff (efficiencies_of df) -> In r (rows df) ->
                          cell_ok (get eff r) = true
}.

(** ** The failures of the validation

    The specification names four kinds of failure; these are the exceptions
    that stand for them. *)

Definition MissingColumnError (column : string) : exn :=
  ValueError ("DataFrame does not contain a column named '" ++ column ++ "'").

Definition MissingEfficiencyColumnError : exn :=
  ValueError "DataFrame must contain a column named 'arch eff' or 'app eff'.".

Definition NonNumericValueError (column : string) : exn :=
  TypeError ("Column '" ++ column ++ "' must contain only numeric values.").

Definition OutOfRangeError (column : string) : exn :=
  ValueError (column ++ " must in range [0, 1]").

Definition message (e : exn) : string :=
  match e with
  | ValueError msg | TypeError msg | StatisticsError msg => msg
  end.

(** The checks of [pp], each as the test that makes it fail. *)
Definition key_columns : list string := ["problem"; "platform"; "application"].

Definition missing (df : DataFrame) (column : string) : bool :=
  negb (has_column df column).

Definition holds_non_numeric (df : DataFrame) (column : string) : bool :=
  negb (forallb (fun r => is_numeric (get column r)) (rows df)).

Definition leaves_range (df : DataFrame) (eff : string) : bool :=
  negb (in_range df eff).

(** [sub in s] *)
Fixpoint contains (sub s : string) : bool :=
  String.prefix sub s ||
  match s with
  | EmptyString => false
  | String _ t => contains sub t
  end.

(** A cell that breaks the range check: a number below 0 or above 1. *)
Definition out_of_range (c : cell) : Prop :=
  exists q, c = Num q /\ (q < 0 \/ 1 < q)%Q.

(** A cell that counts as "did not run": a null, or the number zero. *)
Definition no_efficiency (c : cell) : Prop :=
  match c with
  | Null => True
  | Num q => (q == 0)%Q
  | NonNumeric _ => False
  end.

(** ** Example tables *)

(** Two problems, each solved by its own application on one platform. *)
Definition sparse_pairs : DataFrame :=
  mkDataFrame ["problem"; "platform"; "application"; "app eff"]
    [ mkRow "P1" "A" "X" (Num (1 # 2)) Null;
      mkRow "P2" "A" "Y" (Num (1 # 2)) Null ].

(** Application X ran on platform A only; platform B is in the table
    for application Y. *)
Definition other_platform : DataFrame :=
  mkDataFrame ["problem"; "platform"; "application"; "app eff"]
    [ mkRow "P1" "A" "X" (Num 1) Null;
      mkRow "P1" "B" "Y" (Num 1) Null ].

(** Two trials of the same (problem, platform, application). *)
Definition repeated_trials : DataFrame :=
  mkDataFrame ["problem"; "platform"; "application"; "app eff"]
    [ mkRow "P1" "A" "X" (Num (2 # 5)) Null;
      mkRow "P1" "A" "X" (Num (3 # 5)) Null ].

(** Application Y did not run problem P1 on platform B; application X is
    measured after Y. *)
Definition two_platforms : DataFrame :=
  mkDataFrame ["problem"; "platform"; "application"; "app eff"; "arch eff"]
    [ mkRow "P1" "A" "Y" (Num (1 # 2)) (Num (1 # 4));
      mkRow "P1" "A" "X" (Num (1 # 2)) (Num 0);
      mkRow "P1" "B" "X" (Num (1 # 2)) Null ].

(** Nulls, and the two ends of the range. *)
Definition boundary_values : DataFrame :=
  mkDataFrame ["problem"; "platform"; "application"; "arch eff"]
    [ mkRow "P1" "A" "X" Null (Num 0);
      mkRow "P1" "B" "X" Null (Num 1);
      mkRow "P1" "C" "X" Null Null ].

(** An efficiency given as a percentage. *)
Definition percentages : DataFrame :=
  mkDataFrame ["problem"; "platform"; "application"; "app eff"; "arch eff"]
    [ mkRow "P1" "A" "X" (Num (1 # 2)) (Num 50);
      mkRow "P1" "B" "X" Null (Num (1 # 4)) ].

(** * Facts about the building blocks *)

Local Open Scope nat_scope.
Local Open Scope string_scope.

Lemma pair_eqb_eq (a b : string * string) : pair_eqb a b = true <-> a = b.
Proof.
  destruct a as [a1 a2], b as [b1 b2]; unfold pair_eqb; simpl.
  rewrite andb_true_iff, !String.eqb_eq.
  split; [intros [-> ->]; reflexivity | intros [= -> ->]; auto].
Qed.

Lemma triple_eqb_eq (a b : string * string * string) : triple_eqb a b = true <-> a = b.
Proof.
  destruct a as [a12 a3], b as [b12 b3]; unfold triple_eqb; simpl.
  rewrite andb_true_iff, pair_eqb_eq, String.eqb_eq.
  split; [intros [-> ->]; reflexivity | intros [= -> ->]; auto].
Qed.

Lemma bind_ok {A B : Type} (m : result A) (k : A -> result B) (b : B) :
  bind m k = Ok b -> exists a, m = Ok a /\ k a = Ok b.
Proof.
  destruct m as [a | e]; simpl; [eauto | discriminate].
Qed.

Lemma map_result_ok {A B : Type} (f : A -> result B) (l : list A) :
  (forall x, In x l -> exists y, f x = Ok y) ->
  exists ys, map_result f l = Ok ys.
Proof.
  induction l as [| x t IH]; intros H; simpl.
  - eauto.
  - destruct (H x (or_introl eq_refl)) as [y ->].
    destruct IH as [ys ->]; [intros; apply H; now right |].
    simpl. eauto.
Qed.

Lemma map_result_Forall2 {A B : Type} (f : A -> result B) (l : list A) (ys : list B) :
  map_result f l = Ok ys -> Forall2 (fun x y => f x = Ok y) l ys.
Proof.
  revert ys; induction l as [| x t IH]; simpl; intros ys H.
  - injection H as <-. constructor.
  - apply bind_ok in H as [y [Hy H]].
    apply bind_ok in H as [ys' [Hys H]].
    injection H as <-. constructor; auto.
Qed.

Section UniqueFacts.
Context {K : Type}.
Variable eqb : K -> K -> bool.
Hypothesis eqb_eq : forall x y, eqb x y = true <-> x = y.

Lemma eqb_refl' (x : K) : eqb x x = true.
Proof. now apply eqb_eq. Qed.

Lemma In_unique (x : K) (l : list K) : In x (unique eqb l) <-> In x l.
Proof.
  induction l as [| y t IH]; simpl; [tauto |].
  rewrite filter_In, IH, negb_true_iff.
  split.
  - intros [H | [H _]]; auto.
  - intros [H | H]; auto.
    destruct (eqb x y) eqn:E; [left; symmetry; now apply eqb_eq | right; auto].
Qed.

Lemma NoDup_unique (l : list K) : NoDup (unique eqb l).
Proof.
  induction l as [| y t IH]; simpl; constructor.
  - rewrite filter_In, eqb_refl'. intros [_ H]; discriminate.
  - now apply NoDup_filter.
Qed.
End UniqueFacts.

Section GroupingFacts.
Context {K : Type}.
Variable eqb : K -> K -> bool.
Variable leb : K -> K -> bool.
Hypothesis eqb_eq : forall x y, eqb x y = true <-> x = y.

Lemma insert_sorted_perm (k : K) (l : list K) :
  Permutation (insert_sorted leb k l) (k :: l).
Proof.
  induction l as [| y t IH]; simpl; [reflexivity |].
  destruct (leb k y); [reflexivity |].
  rewrite IH. apply perm_swap.
Qed.

Lemma stable_sort_perm (l : list K) : Permutation (stable_sort leb l) l.
Proof.
  induction l as [| y t IH]; simpl; [reflexivity |].
  rewrite insert_sorted_perm. now constructor.
Qed.

Lemma In_stable_sort (x : K) (l : list K) : In x (stable_sort leb l) <-> In x l.
Proof.
  split; apply Permutation_in;
    [apply stable_sort_perm | symmetry; apply stable_sort_perm].
Qed.

Lemma NoDup_stable_sort (l : list K) : NoDup l -> NoDup (stable_sort leb l).
Proof.
  apply Permutation_NoDup. symmetry. apply stable_sort_perm.
Qed.

(** The keys of the groups are the distinct keys of the table, sorted. *)
Lemma groupby_keys {R : Type} (key : R -> K) (table : list R) :
  map fst (groupby eqb leb key table) = stable_sort leb (unique eqb (map key table)).
Proof.
  unfold groupby. rewrite map_map. simpl. apply map_id.
Qed.

(** A group holds the rows of its key, and its key is one of the table. *)
Lemma In_groupby {R : Type} (key : R -> K) (table : list R) (k : K) (g : list R) :
  In (k, g) (groupby eqb leb key table) ->
  g = filter (fun r => eqb (key r) k) table /\ In k (map key table).
Proof.
  unfold groupby. rewrite in_map_iff.
  intros [k' [[= -> <-] Hk]]. split; [reflexivity |].
  now apply (In_unique eqb eqb_eq), In_stable_sort.
Qed.
End GroupingFacts.

(** ** Validation *)

Lemma for_each_ok {A : Type} (body : A -> result unit) (l : list A) :
  (forall x, In x l -> body x = Ok tt) -> for_each body l = Ok tt.
Proof.
  induction l as [| x t IH]; intros H; simpl; [reflexivity |].
  rewrite (H x (or_introl eq_refl)). simpl. apply IH. intros; apply H; now right.
Qed.

Lemma cell_ok_numeric (c : cell) : cell_ok c = true -> is_numeric c = true.
Proof. destruct c; simpl; auto. Qed.

Lemma cell_ok_between (c : cell) : cell_ok c = true -> between 0 1 (fillna 0 c) = true.
Proof. destruct c; simpl; auto; discriminate. Qed.

Lemma efficiencies_of_cases (df : DataFrame) (eff : string) :
  In eff (efficiencies_of df) -> eff = "app eff" \/ eff = "arch eff".
Proof.
  unfold efficiencies_of.
  destruct (has_column df "app eff"), (has_column df "arch eff"); simpl; intuition.
Qed.

Lemma selected_In (efficiencies : list string) (eff : string) :
  selected efficiencies eff = true <-> In eff efficiencies.
Proof.
  unfold selected. rewrite existsb_exists. split.
  - intros [x [Hx E]]. apply String.eqb_eq in E. now subst.
  - intros H. exists eff. split; [assumption | apply String.eqb_refl].
Qed.

Lemma valid_table_validated (df : DataFrame) :
  valid_table df = true -> validated df.
Proof.
  unfold valid_table. rewrite !andb_true_iff, negb_true_iff, forallb_forall.
  intros [[[[H1 H2] H3] H4] H5]. split; auto.
  - intros E. rewrite E in H4. discriminate.
  - intros eff r He Hr. specialize (H5 eff He).
    rewrite forallb_forall in H5. auto.
Qed.

(** On a valid table no check of [pp] fires, and [pp] is its aggregation
    part. *)
Lemma pp_valid (lib : pandas) (df : DataFrame) :
  valid_table df = true ->
  pp lib df =
  (aggregated <- map_result (hmean_of_group (efficiencies_of df))
                   (groupby pair_eqb pair_leb key2
                      (complete (max_per_key (efficiencies_of df) (rows df)))) ;;
   reset_index_after_agg lib aggregated ;;;
   Ok (mkPPFrame (["problem"; "application"] ++ map (replace "eff" "pp") (efficiencies_of df))
         (_sort_by_app_order aggregated (unique String.eqb (map application (rows df)))))).
Proof.
  intros V. apply valid_table_validated in V. destruct V as [H1 H2 H3 H4 H5].
  unfold pp, _require_columns. simpl for_each. rewrite H1, H2, H3. simpl bind.
  destruct (efficiencies_of df) as [| e es] eqn:E; [congruence |].
  simpl Nat.eqb. cbv iota.
  replace (_require_numeric df (e :: es)) with (@Ok unit tt).
  2:{ symmetry. apply for_each_ok. intros c Hc.
      rewrite (proj2 (forallb_forall _ _)); [reflexivity |].
      intros r Hr. apply cell_ok_numeric, H5; assumption. }
  replace (check_range df (e :: es)) with (@Ok unit tt).
  2:{ symmetry. apply for_each_ok. intros c Hc.
      unfold in_range. rewrite (proj2 (forallb_forall _ _)); [reflexivity |].
      intros r Hr. apply cell_ok_between, H5; assumption. }
  reflexivity.
Qed.

(** ** Harmonic mean *)

Lemma Qlt_bool_false (x y : Q) : Qlt_bool x y = false <-> (y <= x)%Q.
Proof.
  unfold Qlt_bool. rewrite negb_false_iff. apply Qle_bool_iff.
Qed.

Lemma sum_reciprocals_nonneg (data : list Q) (acc : Q) :
  Forall (fun x => 0 <= x)%Q data -> (0 <= acc)%Q ->
  match sum_reciprocals data acc with
  | NegativeValue => False
  | ZeroDivision => Exists (fun x => x == 0)%Q data
  | Total total => (acc <= total)%Q /\ (data <> [] -> 0 < total)%Q
                   /\ Forall (fun x => ~ x == 0)%Q data
  end.
Proof.
  intros H; revert acc; induction H as [| x t Hx Ht IH]; intros acc Hacc; simpl.
  - split; [apply Qle_refl | split; [congruence | constructor]].
  - rewrite (proj2 (Qlt_bool_false x 0) Hx).
    destruct (Qeq_bool x 0) eqn:E.
    + constructor. now apply Qeq_bool_iff.
    + assert (Hne : ~ (x == 0)%Q) by (intros C; apply Qeq_bool_iff in C; congruence).
      assert (Hpos : (0 < x)%Q).
      { apply Qle_lteq in Hx as [Hx | Hx]; [assumption | now symmetry in Hx]. }
      assert (Hinv : (0 < 1 / x)%Q).
      { unfold Qdiv. rewrite Qmult_1_l. now apply Qinv_lt_0_compat. }
      assert (Hacc' : (acc < acc + 1 / x)%Q).
      { rewrite <- (Qplus_0_r acc) at 1. apply Qplus_lt_r. exact Hinv. }
      specialize (IH (acc + 1 / x)%Q).
      destruct (sum_reciprocals t (acc + 1 / x)).
      * apply IH. apply Qlt_le_weak. eapply Qle_lt_trans; eauto.
      * constructor 2. apply IH. apply Qlt_le_weak. eapply Qle_lt_trans; eauto.
      * destruct IH as [I1 [I2 I3]].
        { apply Qlt_le_weak. eapply Qle_lt_trans; eauto. }
        split; [| split].
        -- apply Qlt_le_weak. eapply Qlt_le_trans; eauto.
        -- intros _. eapply Qle_lt_trans; [exact Hacc |].
           eapply Qlt_le_trans; eauto.
        -- constructor; assumption.
Qed.

(** The harmonic mean of non-negative values, at least one of them, is
    defined. *)
Lemma harmonic_mean_returns (data : list Q) :
  data <> [] -> Forall (fun x => 0 <= x)%Q data ->
  exists v, harmonic_mean data = Ok v.
Proof.
  intros Hne H. destruct data as [| x [| y t]]; [congruence | |].
  - simpl. inversion H as [| ? ? Hx _]; subst.
    rewrite (proj2 (Qlt_bool_false x 0) Hx). eauto.
  - unfold harmonic_mean.
    pose proof (sum_reciprocals_nonneg (x :: y :: t) 0 H (Qle_refl 0)) as S.
    destruct (sum_reciprocals (x :: y :: t) 0) as [| | total]; [contradiction | eauto |].
    destruct S as [_ [S _]].
    destruct (Qle_bool total 0) eqn:E; [| eauto].
    apply Qle_bool_iff in E. exfalso.
    apply (Qlt_irrefl 0). eapply Qlt_le_trans; [apply S; discriminate | exact E].
Qed.

(** A zero among non-negative values forces the harmonic mean to zero. *)
Lemma harmonic_mean_zero (data : list Q) :
  Forall (fun x => 0 <= x)%Q data -> Exists (fun x => x == 0)%Q data ->
  exists v, harmonic_mean data = Ok v /\ (v == 0)%Q.
Proof.
  intros H Z. destruct data as [| x [| y t]].
  - inversion Z.
  - simpl. inversion H as [| ? ? Hx _]; subst.
    rewrite (proj2 (Qlt_bool_false x 0) Hx).
    exists x. split; [reflexivity |].
    inversion Z as [? ? Hz | ? ? Hz]; subst; [assumption | inversion Hz].
  - unfold harmonic_mean.
    pose proof (sum_reciprocals_nonneg (x :: y :: t) 0 H (Qle_refl 0)) as S.
    destruct (sum_reciprocals (x :: y :: t) 0) as [| | total]; [contradiction | |].
    + exists 0%Q. split; reflexivity.
    + destruct S as [_ [_ S]]. exfalso.
      rewrite Exists_exists in Z. destruct Z as [z [Hz Ez]].
      rewrite Forall_forall in S. exact (S z Hz Ez).
Qed.

Lemma harmonic_mean_single (x : Q) : (0 <= x)%Q -> harmonic_mean [x] = Ok x.
Proof.
  intros Hx. simpl. now rewrite (proj2 (Qlt_bool_false x 0) Hx).
Qed.

(** ** The "max" aggregation *)

Lemma agg_max_spec (values : list cell) :
  match agg_max values with
  | Null => forall q, ~ In (Num q) values
  | Num m => In (Num m) values /\ forall q, In (Num q) values -> (q <= m)%Q
  | NonNumeric _ => False
  end.
Proof.
  induction values as [| c t IH]; simpl; [auto |].
  destruct c as [| x | s].
  - destruct (agg_max t) as [| m | s'].
    + intros q [C | C]; [discriminate | exact (IH q C)].
    + destruct IH as [I1 I2]. split; [now right |].
      intros q [C | C]; [discriminate | auto].
    + assumption.
  - destruct (agg_max t) as [| m | s'].
    + split; [now left |].
      intros q [[= <-] | C]; [apply Qle_refl | destruct (IH q C)].
    + destruct IH as [I1 I2].
      destruct (Qle_bool x m) eqn:E.
      * apply Qle_bool_iff in E. split; [now right |].
        intros q [[= <-] | C]; auto.
      * assert (m <= x)%Q.
        { destruct (Qlt_le_dec m x) as [L | L]; [now apply Qlt_le_weak |].
          apply Qle_bool_iff in L. congruence. }
        split; [now left |].
        intros q [[= <-] | C]; [apply Qle_refl |].
        eapply Qle_trans; [apply I2, C | assumption].
    + contradiction.
  - destruct (agg_max t) as [| m | s'].
    + intros q [C | C]; [discriminate | exact (IH q C)].
    + destruct IH as [I1 I2]. split; [now right |].
      intros q [C | C]; [discriminate | auto].
    + assumption.
Qed.

Lemma agg_max_ok (values : list cell) :
  Forall (fun c => cell_ok c = true) values -> cell_ok (agg_max values) = true.
Proof.
  intros H. pose proof (agg_max_spec values) as S.
  destruct (agg_max values) as [| m | s]; [reflexivity | | contradiction].
  destruct S as [S _]. rewrite Forall_forall in H. exact (H _ S).
Qed.

(** ** Deduplication *)

Lemma max_per_key_keys (efficiencies : list string) (table : list Row) :
  map key3 (max_per_key efficiencies table) =
  stable_sort triple_leb (unique triple_eqb (map key3 table)).
Proof.
  unfold max_per_key. rewrite map_map.
  rewrite <- (groupby_keys triple_eqb triple_leb key3 table).
  apply map_ext. intros [[[p h] a] g]. reflexivity.
Qed.

Lemma NoDup_max_per_key (efficiencies : list string) (table : list Row) :
  NoDup (map key3 (max_per_key efficiencies table)).
Proof.
  rewrite max_per_key_keys.
  apply NoDup_stable_sort, (NoDup_unique triple_eqb triple_eqb_eq).
Qed.

Lemma In_max_per_key_keys (efficiencies : list string) (table : list Row)
    (k : string * string * string) :
  In k (map key3 (max_per_key efficiencies table)) <-> In k (map key3 table).
Proof.
  rewrite max_per_key_keys, In_stable_sort.
  apply (In_unique triple_eqb triple_eqb_eq).
Qed.

(** A row of the deduplicated table holds, in each selected column, the
    maximum over the rows of the table that have its key. *)
Lemma In_max_per_key (efficiencies : list string) (table : list Row) (r : Row) :
  In r (max_per_key efficiencies table) ->
  In (key3 r) (map key3 table) /\
  forall eff, In eff efficiencies -> eff = "app eff" \/ eff = "arch eff" ->
    get eff r = agg_max (map (get eff) (filter (fun r' => triple_eqb (key3 r') (key3 r)) table)).
Proof.
  unfold max_per_key. rewrite in_map_iff.
  intros [[[[p h] a] g] [<- Hg]].
  apply (In_groupby triple_eqb triple_leb triple_eqb_eq) in Hg as [-> Hk].
  split; [exact Hk |].
  intros eff He [-> | ->]; unfold get; simpl;
    apply selected_In in He; rewrite He; reflexivity.
Qed.

(** ** Completion *)

Lemma In_product3 (ps hs apps : list string) (p h a : string) :
  In (p, h, a) (product3 ps hs apps) <-> In p ps /\ In h hs /\ In a apps.
Proof.
  unfold product3. rewrite in_flat_map. split.
  - intros [p' [Hp H]]. apply in_flat_map in H as [h' [Hh H]].
    apply in_map_iff in H as [a' [[= -> -> ->] Ha]]. auto.
  - intros [Hp [Hh Ha]]. exists p. split; [assumption |].
    apply in_flat_map. exists h. split; [assumption |].
    apply in_map_iff. eauto.
Qed.

Lemma NoDup_flat_map {A B : Type} (f : A -> list B) (l : list A) :
  NoDup l -> (forall x, In x l -> NoDup (f x)) ->
  (forall x y z, In x l -> In y l -> In z (f x) -> In z (f y) -> x = y) ->
  NoDup (flat_map f l).
Proof.
  induction l as [| x t IH]; intros N H1 H2; simpl; [constructor |].
  apply NoDup_cons_iff in N as [Nx Nt].
  apply NoDup_app.
  - apply H1. now left.
  - apply IH; auto.
    + intros; apply H1; now right.
    + intros x' y z Hx Hy. apply H2; now right.
  - intros z Hz C. apply in_flat_map in C as [y [Hy C]].
    assert (x = y) by (apply (H2 x y z); auto; [now left | now right]).
    subst. contradiction.
Qed.

Lemma NoDup_product3 (ps hs apps : list string) :
  NoDup ps -> NoDup hs -> NoDup apps -> NoDup (product3 ps hs apps).
Proof.
  intros Np Nh Na. unfold product3.
  apply NoDup_flat_map; [assumption | |].
  - intros p _. apply NoDup_flat_map; [assumption | |].
    + intros h _. induction Na as [| a t Ha Nt IH]; simpl; constructor; auto.
      rewrite in_map_iff. intros [a' [[= ->] C]]. contradiction.
    + intros h h' z _ _ H H'.
      apply in_map_iff in H as [a [<- _]].
      apply in_map_iff in H' as [a' [[= -> _] _]]. reflexivity.
  - intros p p' z _ _ H H'.
    apply in_flat_map in H as [h [_ H]]. apply in_map_iff in H as [a [<- _]].
    apply in_flat_map in H' as [h' [_ H']].
    apply in_map_iff in H' as [a' [[= -> _ _] _]]. reflexivity.
Qed.

Lemma slice_filter (table : list Row) (k : string * string * string) :
  slice table k = filter (fun r => triple_eqb (key3 r) k) table.
Proof.
  destruct k as [[p h] a]. unfold slice, triple_eqb, pair_eqb, key3. reflexivity.
Qed.

Lemma empty_slice (table : list Row) (k : string * string * string) :
  empty (slice table k) = true <-> ~ In k (map key3 table).
Proof.
  rewrite slice_filter. split.
  - intros E C. apply in_map_iff in C as [r [Hk Hr]].
    assert (In r (filter (fun r => triple_eqb (key3 r) k) table)) as H.
    { apply filter_In. split; [assumption | now apply triple_eqb_eq]. }
    destruct (filter _ table); [contradiction | discriminate].
  - intros N. destruct (filter _ table) as [| r t] eqn:E; [reflexivity |].
    exfalso. apply N.
    assert (In r (filter (fun r => triple_eqb (key3 r) k) table)) as H
        by (rewrite E; now left).
    apply filter_In in H as [H1 H2]. apply triple_eqb_eq in H2.
    rewrite <- H2. now apply in_map.
Qed.

Lemma nonempty_slice (table : list Row) (k : string * string * string) :
  empty (slice table k) = false -> In k (map key3 table).
Proof.
  rewrite slice_filter. intros E.
  destruct (filter _ table) as [| r t] eqn:F; [discriminate |].
  assert (In r (filter (fun r => triple_eqb (key3 r) k) table)) as H
      by (rewrite F; now left).
  apply filter_In in H as [H1 H2]. apply triple_eqb_eq in H2.
  rewrite <- H2. now apply in_map.
Qed.

(** The keys of the "did not run" rows are the combinations without a
    row, in the order of the product. *)
Lemma did_not_run_keys (table : list Row) :
  map key3 (did_not_run table) =
  filter (fun k => empty (slice table k))
         (product3 (unique String.eqb (map problem table))
                   (unique String.eqb (map platform table))
                   (unique String.eqb (map application table))).
Proof.
  unfold did_not_run.
  induction (product3 _ _ _) as [| [[p h] a] t IH]; simpl; [reflexivity |].
  rewrite map_app, IH.
  destruct (empty _); reflexivity.
Qed.

Lemma In_did_not_run (table : list Row) (r : Row) :
  In r (did_not_run table) ->
  r = mkRow (problem r) (platform r) (application r) Null Null /\
  ~ In (key3 r) (map key3 table).
Proof.
  unfold did_not_run. rewrite in_flat_map.
  intros [[[p h] a] [_ H]].
  destruct (empty (slice table (p, h, a))) eqn:E; [| contradiction].
  destruct H as [<- | []]. split; [reflexivity |].
  now apply empty_slice.
Qed.

Section Completion.
Variable table : list Row.
Hypothesis table_keys : NoDup (map key3 table).

Lemma In_complete_keys (p h a : string) :
  In (p, h, a) (map key3 (complete table)) <->
  In p (map problem table) /\ In h (map platform table) /\ In a (map application table).
Proof.
  unfold complete. rewrite map_app, in_app_iff, did_not_run_keys, filter_In.
  rewrite In_product3, !(In_unique String.eqb String.eqb_eq), empty_slice.
  split.
  - intros [H | [H _]]; [| exact H].
    apply in_map_iff in H as [r [[= <- <- <-] Hr]].
    repeat split; now apply in_map.
  - intros H.
    destruct (empty (slice table (p, h, a))) eqn:E.
    + right. split; [exact H | now apply empty_slice].
    + left. now apply nonempty_slice.
Qed.

Lemma NoDup_complete_keys : NoDup (map key3 (complete table)).
Proof.
  unfold complete. rewrite map_app. apply NoDup_app.
  - exact table_keys.
  - rewrite did_not_run_keys. apply NoDup_filter, NoDup_product3;
      apply (NoDup_unique String.eqb String.eqb_eq).
  - intros k Hk C. rewrite did_not_run_keys in C.
    apply filter_In in C as [_ C]. apply empty_slice in C. contradiction.
Qed.

(** A row of the completed table is a row of the table or holds no
    efficiency at all. *)
Lemma In_complete (r : Row) :
  In r (complete table) ->
  In r table \/ (forall eff, get eff r = Null).
Proof.
  unfold complete. rewrite in_app_iff. intros [H | H]; [now left | right].
  apply In_did_not_run in H as [-> _]. intros eff. unfold get; simpl.
  destruct (eff =? "app eff"); reflexivity.
Qed.
End Completion.

(** ** Aggregation *)

Lemma cell_ok_nonneg (c : cell) : cell_ok c = true -> (0 <= fillna 0 c)%Q.
Proof.
  destruct c as [| q | s]; simpl.
  - intros _. apply Qle_refl.
  - unfold between. rewrite andb_true_iff. intros [H _]. now apply Qle_bool_iff.
  - discriminate.
Qed.

Lemma hmean_of_group_ok (efficiencies : list string) (p a : string) (g : list Row)
    (row : PPRow) :
  hmean_of_group efficiencies (p, a, g) = Ok row ->
  pp_key row = (p, a) /\
  forall eff, In eff efficiencies -> eff = "app eff" \/ eff = "arch eff" ->
    exists v, pp_get eff row = Some v /\ harmonic_mean (filled eff g) = Ok v.
Proof.
  unfold hmean_of_group, _hmean. intros H.
  apply bind_ok in H as [x [Hx H]]. apply bind_ok in H as [y [Hy H]].
  injection H as <-. split; [reflexivity |].
  intros eff He [-> | ->]; apply selected_In in He; rewrite He in *.
  - apply bind_ok in Hx as [v [Hv [= <-]]]. exists v. split; [reflexivity | exact Hv].
  - apply bind_ok in Hy as [v [Hv [= <-]]]. exists v. split; [reflexivity | exact Hv].
Qed.

Lemma hmean_of_group_returns (efficiencies : list string) (p a : string) (g : list Row) :
  g <> [] ->
  (forall eff r, In eff efficiencies -> In r g -> cell_ok (get eff r) = true) ->
  exists row, hmean_of_group efficiencies (p, a, g) = Ok row.
Proof.
  intros Hg H.
  assert (forall eff, In eff efficiencies -> exists v, _hmean (filled eff g) = Ok v) as R.
  { intros eff He. apply harmonic_mean_returns.
    - destruct g; [congruence | discriminate].
    - unfold filled. apply Forall_map, Forall_forall.
      intros r Hr. apply cell_ok_nonneg, H; assumption. }
  unfold hmean_of_group.
  destruct (selected efficiencies "app eff") eqn:E1;
    destruct (selected efficiencies "arch eff") eqn:E2;
    try (apply selected_In in E1; destruct (R _ E1) as [v1 ->]);
    try (apply selected_In in E2; destruct (R _ E2) as [v2 ->]);
    simpl; eauto.
Qed.

(** Every efficiency cell of the completed table is null or in [[0, 1]]. *)
Lemma completed_cells (df : DataFrame) (eff : string) (r : Row) :
  validated df -> In eff (efficiencies_of df) -> In r (completed df) ->
  cell_ok (get eff r) = true.
Proof.
  intros V He Hr. apply In_complete in Hr as [Hr | Hr]; [| now rewrite Hr].
  apply In_max_per_key in Hr as [_ Hr].
  rewrite (Hr eff He (efficiencies_of_cases df eff He)).
  apply agg_max_ok, Forall_map, Forall_forall.
  intros r' Hr'. apply filter_In in Hr' as [Hr' _].
  now apply (v_cells df V).
Qed.

Lemma Forall2_keys {A B K : Type} (P : A -> B -> Prop) (f : A -> K) (g : B -> K)
    (l : list A) (l' : list B) :
  Forall2 P l l' -> (forall x y, P x y -> g y = f x) -> map g l' = map f l.
Proof.
  intros H HP. induction H as [| x y l l' Hxy H IH]; simpl; [reflexivity |].
  now rewrite (HP x y Hxy), IH.
Qed.

Lemma Forall2_In_r {A B : Type} (P : A -> B -> Prop) (l : list A) (l' : list B) (y : B) :
  Forall2 P l l' -> In y l' -> exists x, In x l /\ P x y.
Proof.
  intros H. induction H as [| x y' l l' Hxy H IH]; simpl; [contradiction |].
  intros [<- | Hy]; [eauto |].
  destruct (IH Hy) as [x' [Hx' Px']]. eauto.
Qed.

(** The aggregation of a valid table: every group of the completed table
    by (problem, application) is reduced by the harmonic mean, and none
    fails. *)
Lemma aggregation_spec (df : DataFrame) :
  valid_table df = true ->
  exists aggregated,
    map_result (hmean_of_group (efficiencies_of df))
               (groupby pair_eqb pair_leb key2 (completed df)) = Ok aggregated /\
    map pp_key aggregated =
      stable_sort pair_leb (unique pair_eqb (map key2 (completed df))) /\
    forall row, In row aggregated ->
      forall eff, In eff (efficiencies_of df) ->
        exists v, pp_get eff row = Some v /\
          harmonic_mean
            (filled eff (filter (fun r => pair_eqb (key2 r) (pp_key row)) (completed df)))
          = Ok v.
Proof.
  intros V.
  pose proof (valid_table_validated df V) as V'.
  destruct (map_result_ok (hmean_of_group (efficiencies_of df))
              (groupby pair_eqb pair_leb key2 (completed df))) as [aggregated E].
  { intros [[p a] g] Hg.
    apply (In_groupby pair_eqb pair_leb pair_eqb_eq) in Hg as [-> Hk].
    apply hmean_of_group_returns.
    - apply in_map_iff in Hk as [r [Hk Hr]].
      intros C.
      assert (In r (filter (fun r0 => pair_eqb (key2 r0) (p, a)) (completed df))) as I
          by (apply filter_In; split; [assumption | now apply pair_eqb_eq]).
      rewrite C in I. contradiction.
    - intros eff r He Hr. apply filter_In in Hr as [Hr _].
      now apply (completed_cells df). }
  exists aggregated. split; [exact E |].
  apply map_result_Forall2 in E. split.
  - rewrite <- (groupby_keys pair_eqb pair_leb key2 (completed df)).
    apply (Forall2_keys _ _ _ _ _ E).
    intros [[p a] g] row H. apply hmean_of_group_ok in H as [H _]. exact H.
  - intros row Hrow eff He.
    destruct (Forall2_In_r _ _ _ _ E Hrow) as [[[p a] g] [Hg H]].
    apply (In_groupby pair_eqb pair_leb pair_eqb_eq) in Hg as [-> _].
    apply hmean_of_group_ok in H as [Hk H]. rewrite Hk.
    apply H; [assumption | now apply (efficiencies_of_cases df)].
Qed.

(** What [pp] returns, when it returns: the aggregation, sorted by
    application order. *)
Lemma pp_spec (lib : pandas) (df : DataFrame) (out : PPFrame) :
  valid_table df = true ->
  pp lib df = Ok out ->
  exists aggregated,
    out = mkPPFrame
            (["problem"; "application"] ++ map (replace "eff" "pp") (efficiencies_of df))
            (_sort_by_app_order aggregated
               (unique String.eqb (map application (rows df)))) /\
    map pp_key aggregated =
      stable_sort pair_leb (unique pair_eqb (map key2 (completed df))) /\
    forall row, In row aggregated ->
      forall eff, In eff (efficiencies_of df) ->
        exists v, pp_get eff row = Some v /\
          harmonic_mean
            (filled eff (filter (fun r => pair_eqb (key2 r) (pp_key row)) (completed df)))
          = Ok v.
Proof.
  intros V E. rewrite (pp_valid lib df V) in E.
  fold (deduplicated df) in E. fold (completed df) in E.
  destruct (aggregation_spec df V) as [aggregated [M [K H]]].
  rewrite M in E. simpl bind in E.
  destruct (reset_index_after_agg lib aggregated); [| discriminate].
  injection E as <-. exists aggregated. auto.
Qed.

(** ** The keys of the completed table *)

Lemma In_deduplicated_keys (df : DataFrame) (k : string * string * string) :
  In k (map key3 (deduplicated df)) <-> In k (map key3 (rows df)).
Proof. apply In_max_per_key_keys. Qed.

Lemma In_completed_key3 (df : DataFrame) (p h a : string) :
  In (p, h, a) (map key3 (completed df)) <->
  In p (map problem (rows df)) /\ In h (map platform (rows df)) /\
  In a (map application (rows df)).
Proof.
  unfold completed.
  rewrite (In_complete_keys (deduplicated df)).
  assert (forall (f : Row -> string) (g : string * string * string -> string),
             (forall r, f r = g (key3 r)) ->
             forall x, In x (map f (deduplicated df)) <-> In x (map f (rows df))) as T.
  { intros f g Hf x. rewrite !in_map_iff. split; intros [r [<- Hr]].
    - apply (in_map key3) in Hr. apply In_deduplicated_keys in Hr.
      apply in_map_iff in Hr as [r' [E Hr']]. exists r'. now rewrite !Hf, E.
    - apply (in_map key3) in Hr. apply In_deduplicated_keys in Hr.
      apply in_map_iff in Hr as [r' [E Hr']]. exists r'. now rewrite !Hf, E. }
  rewrite (T problem (fun k => fst (fst k))), (T platform (fun k => snd (fst k))),
    (T application snd); reflexivity.
Qed.

Lemma In_completed_key2 (df : DataFrame) (p a : string) :
  In (p, a) (map key2 (completed df)) <->
  In p (map problem (rows df)) /\ In a (map application (rows df)).
Proof.
  split.
  - intros H. apply in_map_iff in H as [r [[= <- <-] Hr]].
    apply (in_map key3) in Hr. apply In_completed_key3 in Hr. tauto.
  - intros [Hp Ha].
    assert (exists h, In h (map platform (rows df))) as [h Hh].
    { apply in_map_iff in Hp as [r [_ Hr]]. exists (platform r). now apply in_map. }
    assert (In (p, h, a) (map key3 (completed df))) as H
        by (apply In_completed_key3; auto).
    apply in_map_iff in H as [r [[= <- <- <-] Hr]].
    apply in_map_iff. exists r. split; [reflexivity | assumption].
Qed.

Lemma NoDup_completed_keys (df : DataFrame) : NoDup (map key3 (completed df)).
Proof. apply NoDup_complete_keys, NoDup_max_per_key. Qed.

(** ** The final sort *)

Lemma sort_by_app_order_perm (table : list PPRow) (app_order : list string) :
  Permutation (_sort_by_app_order table app_order) table.
Proof. apply stable_sort_perm. Qed.

Lemma In_sort_by_app_order (table : list PPRow) (app_order : list string) (r : PPRow) :
  In r (_sort_by_app_order table app_order) <-> In r table.
Proof. apply In_stable_sort. Qed.

Section SortByKey.
Context {A : Type}.
Variable rank : A -> nat.

Lemma insert_sorted_by_rank (x : A) (l : list A) :
  StronglySorted (fun a b => rank a <= rank b) l ->
  StronglySorted (fun a b => rank a <= rank b)
                 (insert_sorted (fun a b => (rank a <=? rank b)%nat) x l).
Proof.
  induction 1 as [| y t St IH Hy]; simpl.
  - repeat constructor.
  - destruct (rank x <=? rank y)%nat eqn:E.
    + apply Nat.leb_le in E. constructor; [now constructor |].
      constructor; [exact E |].
      eapply Forall_impl; [| exact Hy]. simpl; intros; lia.
    + apply Nat.leb_gt in E. constructor; [exact IH |].
      apply Forall_forall. intros z Hz.
      apply (Permutation_in _ (insert_sorted_perm _ x t)) in Hz.
      destruct Hz as [<- | Hz]; [lia |].
      rewrite Forall_forall in Hy. now apply Hy.
Qed.

Lemma stable_sort_by_rank (l : list A) :
  StronglySorted (fun a b => rank a <= rank b)
                 (stable_sort (fun a b => (rank a <=? rank b)%nat) l).
Proof.
  induction l as [| x t IH]; simpl; [constructor | now apply insert_sorted_by_rank].
Qed.
End SortByKey.

Lemma StronglySorted_impl {A : Type} (R R' : A -> A -> Prop) (l : list A) :
  (forall x y, R x y -> R' x y) -> StronglySorted R l -> StronglySorted R' l.
Proof.
  intros H. induction 1 as [| x t St IH Hx]; constructor; [assumption |].
  eapply Forall_impl; [| exact Hx]. auto.
Qed.

(** The order of [unique] is the order of first occurrence: comparing
    positions in [unique l] is comparing positions of first occurrence
    in [l]. *)
Lemma index_of_filter_le (a b x : string) (l : list string) :
  index_of a (filter (fun y => negb (y =? x)) l) <=
  index_of b (filter (fun y => negb (y =? x)) l) ->
  b <> x ->
  index_of a l <= index_of b l.
Proof.
  intros H Hb. induction l as [| y t IH]; simpl in *; [lia |].
  destruct (y =? a) eqn:Ea; [lia |].
  destruct (y =? b) eqn:Eb.
  - apply String.eqb_eq in Eb. subst y.
    apply String.eqb_neq in Hb. rewrite Hb in H. simpl in H.
    rewrite Ea, String.eqb_refl in H. lia.
  - destruct (y =? x); simpl in H.
    + apply IH in H. lia.
    + rewrite Ea, Eb in H. apply le_S_n in H. apply IH in H. lia.
Qed.

Lemma index_of_unique_le (a b : string) (l : list string) :
  index_of a (unique String.eqb l) <= index_of b (unique String.eqb l) ->
  index_of a l <= index_of b l.
Proof.
  induction l as [| x t IH]; simpl; [lia |].
  destruct (x =? a) eqn:Ea; [lia |].
  destruct (x =? b) eqn:Eb; [lia |].
  intros H. apply le_S_n in H.
  apply index_of_filter_le in H; [| apply String.eqb_neq; now rewrite String.eqb_sym].
  apply IH in H. lia.
Qed.

Lemma StronglySorted_impl_In {A : Type} (R R' : A -> A -> Prop) (l : list A) :
  (forall x y, In x l -> In y l -> R x y -> R' x y) ->
  StronglySorted R l -> StronglySorted R' l.
Proof.
  intros H S. induction S as [| x t St IH Hx]; constructor.
  - apply IH. intros y z Hy Hz. apply H; now right.
  - rewrite Forall_forall in *. intros y Hy.
    apply H; [now left | now right | now apply Hx].
Qed.

Lemma StronglySorted_filter {A : Type} (R : A -> A -> Prop) (f : A -> bool) (l : list A) :
  StronglySorted R l -> StronglySorted R (filter f l).
Proof.
  induction 1 as [| x t St IH Hx]; simpl; [constructor |].
  destruct (f x); [| assumption].
  constructor; [assumption |].
  rewrite Forall_forall in *. intros y Hy. apply filter_In in Hy as [Hy _]. auto.
Qed.

Lemma StronglySorted_map {A B : Type} (R : B -> B -> Prop) (f : A -> B) (l : list A) :
  StronglySorted (fun x y => R (f x) (f y)) l -> StronglySorted R (map f l).
Proof.
  induction 1 as [| x t St IH Hx]; simpl; constructor; [assumption |].
  now apply Forall_map.
Qed.

Lemma filter_comm {A : Type} (f g : A -> bool) (l : list A) :
  filter f (filter g l) = filter g (filter f l).
Proof.
  induction l as [| x t IH]; simpl; [reflexivity |].
  destruct (g x) eqn:G, (f x) eqn:F; simpl; rewrite ?G, ?F, IH; reflexivity.
Qed.

Lemma filter_unique (x : string) (l : list string) :
  filter (fun y => negb (y =? x)) (unique String.eqb l) =
  unique String.eqb (filter (fun y => negb (y =? x)) l).
Proof.
  induction l as [| y t IH]; simpl; [reflexivity |].
  destruct (y =? x) eqn:E; simpl.
  - apply String.eqb_eq in E. subst y.
    rewrite <- IH. apply forallb_filter_id, forallb_filter.
  - f_equal. rewrite <- IH. apply filter_comm.
Qed.

(** A list that is sorted by position in a duplicate-free [order] and
    has the elements of [order] lists them, repetitions apart, in that
    order. *)
Lemma unique_of_sorted (order l : list string) :
  NoDup order ->
  StronglySorted (fun a b => index_of a order <= index_of b order) l ->
  (forall a, In a l <-> In a order) ->
  unique String.eqb l = order.
Proof.
  revert l. induction order as [| o order' IH]; intros l N S H.
  - destruct l as [| y t]; [reflexivity |]. destruct (proj1 (H y) (or_introl eq_refl)).
  - apply NoDup_cons_iff in N as [No N'].
    destruct l as [| y t]; [destruct (proj2 (H o) (or_introl eq_refl)) |].
    inversion S as [| ? ? St Hy]; subst.
    assert (y = o) as ->.
    { assert (index_of y (o :: order') <= index_of o (o :: order')) as L.
      { destruct (proj2 (H o) (or_introl eq_refl)) as [-> | Ho]; [lia |].
        rewrite Forall_forall in Hy. now apply Hy. }
      simpl in L. rewrite String.eqb_refl in L.
      destruct (o =? y) eqn:E; [now apply String.eqb_eq in E | lia]. }
    simpl. f_equal. rewrite filter_unique. apply IH; [assumption | |].
    + apply StronglySorted_filter with (f := fun y => negb (y =? o)) in St.
      revert St. apply StronglySorted_impl_In.
      intros a b Ha Hb. apply filter_In in Ha as [_ Ha], Hb as [_ Hb].
      apply negb_true_iff in Ha, Hb. simpl.
      rewrite (String.eqb_sym o a), (String.eqb_sym o b), Ha, Hb. lia.
    + intros a. rewrite filter_In, negb_true_iff, String.eqb_neq. split.
      * intros [Ha Hne].
        destruct (proj1 (H a) (or_intror Ha)) as [E | I]; [congruence | exact I].
      * intros Ha. assert (a <> o) as Hne by (intros ->; contradiction).
        split; [| exact Hne].
        destruct (proj2 (H a) (or_intror Ha)) as [E | I]; [congruence | exact I].
Qed.

(** ** The rows of the result *)

(** The keys of the result are, without repetition, the pairs of a problem
    of the input and an application of the input. *)
Lemma pp_keys (lib : pandas) (df : DataFrame) (out : PPFrame) :
  valid_table df = true -> pp lib df = Ok out ->
  NoDup (map pp_key (pp_rows out)) /\
  forall p a, In (p, a) (map pp_key (pp_rows out)) <->
              In p (map problem (rows df)) /\ In a (map application (rows df)).
Proof.
  intros V E. destruct (pp_spec lib df out V E) as [aggregated [-> [K _]]].
  simpl pp_rows.
  assert (Permutation (map pp_key (_sort_by_app_order aggregated
                                     (unique String.eqb (map application (rows df)))))
                      (unique pair_eqb (map key2 (completed df)))) as P.
  { rewrite (Permutation_map pp_key (sort_by_app_order_perm _ _)), K.
    apply stable_sort_perm. }
  split.
  - apply (Permutation_NoDup (Permutation_sym P)), (NoDup_unique pair_eqb pair_eqb_eq).
  - intros p a. split; intros H.
    + apply In_completed_key2, (In_unique pair_eqb pair_eqb_eq).
      exact (Permutation_in _ P H).
    + apply (Permutation_in _ (Permutation_sym P)).
      now apply (In_unique pair_eqb pair_eqb_eq), In_completed_key2.
Qed.

(** The value of a row of the result is the harmonic mean over the rows of
    the completed table that have its key. *)
Lemma pp_values (lib : pandas) (df : DataFrame) (out : PPFrame) (row : PPRow) (eff : string) :
  valid_table df = true -> pp lib df = Ok out ->
  In row (pp_rows out) -> In eff (efficiencies_of df) ->
  exists v, pp_get eff row = Some v /\
    harmonic_mean
      (filled eff (filter (fun r => pair_eqb (key2 r) (pp_key row)) (completed df)))
    = Ok v.
Proof.
  intros V E Hrow He. destruct (pp_spec lib df out V E) as [aggregated [-> [_ H]]].
  simpl in Hrow.
  apply In_sort_by_app_order in Hrow. now apply H.
Qed.

(** With at least one row there is at least one group, and [pp] returns
    whatever the pandas. *)
Lemma pp_returns (lib : pandas) (df : DataFrame) :
  valid_table df = true -> rows df <> [] -> exists out, pp lib df = Ok out.
Proof.
  intros V Hne. rewrite (pp_valid lib df V).
  fold (deduplicated df). fold (completed df).
  destruct (aggregation_spec df V) as [aggregated [M [K _]]].
  rewrite M. simpl bind.
  assert (aggregated <> []) as Ha.
  { destruct (rows df) as [| r t] eqn:R; [congruence |].
    assert (In (problem r, application r) (map pp_key aggregated)) as I.
    { rewrite K. apply In_stable_sort, (In_unique pair_eqb pair_eqb_eq), In_completed_key2.
      rewrite R. simpl. auto. }
    intros C. rewrite C in I. contradiction. }
  destruct aggregated as [| row rest]; [congruence |].
  destruct lib; simpl; eauto.
Qed.

(** Without any row there is no group, and what [pp] does is up to the
    pandas. *)
Lemma pp_no_rows (lib : pandas) (df : DataFrame) :
  valid_table df = true -> rows df = [] ->
  pp lib df =
  match lib with
  | KeepsKeyColumns => Raise (ValueError "cannot insert application, already exists")
  | KeysInIndexOnly =>
      Ok (mkPPFrame
            (["problem"; "application"] ++ map (replace "eff" "pp") (efficiencies_of df))
            [])
  end.
Proof.
  intros V R. rewrite (pp_valid lib df V), R. destruct lib; reflexivity.
Qed.

Lemma NoDup_list_prod {A B : Type} (l : list A) (l' : list B) :
  NoDup l -> NoDup l' -> NoDup (list_prod l l').
Proof.
  intros N N'. induction N as [| x t Hx Nt IH]; simpl; [constructor |].
  apply NoDup_app; [| exact IH |].
  - clear -N'. induction N' as [| y t' Hy Nt' IH']; simpl; constructor; auto.
    rewrite in_map_iff. intros [y' [[= ->] C]]. contradiction.
  - intros [x' y] H C. apply in_map_iff in H as [y' [[= <- <-] _]].
    apply in_prod_iff in C as [C _]. contradiction.
Qed.

Lemma filter_nil {A : Type} (f : A -> bool) (l : list A) :
  (forall x, In x l -> f x = false) -> filter f l = [].
Proof.
  induction l as [| x t IH]; intros H; simpl; [reflexivity |].
  rewrite (H x (or_introl eq_refl)). apply IH. intros; apply H; now right.
Qed.

(** In a table without repeated keys, selecting by the key of a row gives
    that row alone. *)
Lemma filter_singleton {A K : Type} (key : A -> K) (f : A -> bool) (l : list A) (x : A) :
  NoDup (map key l) -> In x l ->
  (forall y, In y l -> f y = true <-> key y = key x) ->
  filter f l = [x].
Proof.
  induction l as [| y t IH]; simpl; intros N Hx H; [contradiction |].
  apply NoDup_cons_iff in N as [Ny Nt].
  destruct Hx as [-> | Hx].
  - rewrite (proj2 (H x (or_introl eq_refl)) eq_refl). f_equal.
    apply filter_nil. intros z Hz.
    destruct (f z) eqn:E; [| reflexivity].
    apply (H z (or_intror Hz)) in E. exfalso. apply Ny. rewrite <- E. now apply in_map.
  - destruct (f y) eqn:E.
    + apply (H y (or_introl eq_refl)) in E. exfalso. apply Ny. rewrite E. now apply in_map.
    + apply IH; auto.
Qed.

(** ** The checks, in order *)

Lemma for_each_find {A : Type} (bad : A -> bool) (err : A -> exn)
    (body : A -> result unit) (l : list A) :
  (forall x, body x = if bad x then Raise (err x) else Ok tt) ->
  for_each body l = match find bad l with
                    | Some x => Raise (err x)
                    | None => Ok tt
                    end.
Proof.
  intros H. induction l as [| x t IH]; simpl; [reflexivity |].
  rewrite H. destruct (bad x); simpl; [reflexivity | exact IH].
Qed.

Lemma require_columns_find (df : DataFrame) (required : list string) :
  _require_columns df required =
  match find (missing df) required with
  | Some column => Raise (MissingColumnError column)
  | None => Ok tt
  end.
Proof.
  apply for_each_find. intros c. unfold missing. now destruct (has_column df c).
Qed.

Lemma require_numeric_find (df : DataFrame) (required : list string) :
  _require_numeric df required =
  match find (holds_non_numeric df) required with
  | Some column => Raise (NonNumericValueError column)
  | None => Ok tt
  end.
Proof.
  apply for_each_find. intros c. unfold holds_non_numeric.
  now destruct (forallb _ (rows df)).
Qed.

Lemma check_range_find (df : DataFrame) (efficiencies : list string) :
  check_range df efficiencies =
  match find (leaves_range df) efficiencies with
  | Some eff => Raise (OutOfRangeError eff)
  | None => Ok tt
  end.
Proof.
  apply for_each_find. intros c. reflexivity.
Qed.

Lemma cell_ok_split (c : cell) :
  cell_ok c = is_numeric c && between 0 1 (fillna 0 c).
Proof. destruct c; reflexivity. Qed.

(** A table that passes the four checks is a valid table. *)
Lemma checks_pass_valid (df : DataFrame) :
  find (missing df) key_columns = None ->
  efficiencies_of df <> [] ->
  find (holds_non_numeric df) (efficiencies_of df) = None ->
  find (leaves_range df) (efficiencies_of df) = None ->
  valid_table df = true.
Proof.
  intros H1 H2 H3 H4. unfold valid_table.
  assert (forall c, In c key_columns -> has_column df c = true) as K.
  { intros c Hc. apply (find_none _ _ H1) in Hc. now apply negb_false_iff in Hc. }
  rewrite !K by (simpl; auto). simpl.
  destruct (efficiencies_of df) as [| e es] eqn:E; [congruence |].
  simpl empty. simpl negb. cbv beta iota. rewrite andb_true_l.
  apply forallb_forall. intros eff He. apply forallb_forall. intros r Hr.
  rewrite cell_ok_split. apply andb_true_iff. split.
  - apply (find_none _ _ H3) in He. apply negb_false_iff in He.
    rewrite forallb_forall in He. now apply He.
  - apply (find_none _ _ H4) in He. apply negb_false_iff in He.
    unfold in_range in He. rewrite forallb_forall in He. now apply He.
Qed.

(** [pp] is its four checks, in order, followed by the aggregation. *)
Lemma pp_checks (lib : pandas) (df : DataFrame) :
  pp lib df =
  match find (missing df) key_columns with
  | Some column => Raise (MissingColumnError column)
  | None =>
      match efficiencies_of df with
      | [] => Raise MissingEfficiencyColumnError
      | _ :: _ =>
          match find (holds_non_numeric df) (efficiencies_of df) with
          | Some column => Raise (NonNumericValueError column)
          | None =>
              match find (leaves_range df) (efficiencies_of df) with
              | Some eff => Raise (OutOfRangeError eff)
              | None =>
                  aggregated <- map_result (hmean_of_group (efficiencies_of df))
                                  (groupby pair_eqb pair_leb key2 (completed df)) ;;
                  reset_index_after_agg lib aggregated ;;;
                  Ok (mkPPFrame
                        (["problem"; "application"]
                           ++ map (replace "eff" "pp") (efficiencies_of df))
                        (_sort_by_app_order aggregated
                           (unique String.eqb (map application (rows df)))))
              end
          end
      end
  end.
Proof.
  unfold pp. rewrite require_columns_find. fold key_columns.
  destruct (find (missing df) key_columns) as [c |]; [reflexivity |].
  simpl bind. fold (deduplicated df). fold (completed df).
  destruct (efficiencies_of df) as [| e es] eqn:E; [reflexivity |].
  simpl Nat.eqb. cbv iota.
  rewrite require_numeric_find.
  destruct (find (holds_non_numeric df) (e :: es)) as [c |]; [reflexivity |].
  simpl bind. rewrite check_range_find.
  destruct (find (leaves_range df) (e :: es)) as [c |]; reflexivity.
Qed.

(** A valid table never gets a range error. *)
Lemma valid_no_range_error (lib : pandas) (df : DataFrame) (eff : string) :
  valid_table df = true -> In eff (efficiencies_of df) ->
  pp lib df <> Raise (OutOfRangeError eff).
Proof.
  intros V He E. destruct (rows df) as [| r t] eqn:R.
  - rewrite (pp_no_rows lib df V R) in E.
    apply efficiencies_of_cases in He.
    destruct lib, He as [-> | ->]; discriminate E.
  - destruct (pp_returns lib df V) as [out O]; [rewrite R; discriminate | congruence].
Qed.

Lemma forallb_false {A : Type} (f : A -> bool) (l : list A) :
  forallb f l = false <-> exists x, In x l /\ f x = false.
Proof.
  induction l as [| x t IH]; simpl.
  - split; [discriminate | intros [x [[] _]]].
  - rewrite andb_false_iff, IH. split.
    + intros [H | [y [Hy H]]]; eauto.
    + intros [y [[<- | Hy] H]]; eauto.
Qed.

Lemma Qle_bool_false (x y : Q) : Qle_bool x y = false <-> (y < x)%Q.
Proof.
  split.
  - intros H. apply Qnot_le_lt. intros C. apply Qle_bool_iff in C. congruence.
  - intros H. destruct (Qle_bool x y) eqn:E; [| reflexivity].
    apply Qle_bool_iff in E. exfalso. exact (Qlt_not_le _ _ H E).
Qed.

Lemma between_false (c : cell) :
  between 0 1 (fillna 0 c) = false <-> out_of_range c.
Proof.
  unfold out_of_range. destruct c as [| q | s]; simpl.
  - split; [discriminate | intros [q [C _]]; discriminate].
  - unfold between. rewrite andb_false_iff, !Qle_bool_false. split.
    + intros H. exists q. split; [reflexivity | exact H].
    + intros [q' [[= <-] H]]. exact H.
  - split; [discriminate | intros [q [C _]]; discriminate].
Qed.

Lemma leaves_range_iff (df : DataFrame) (eff : string) :
  leaves_range df eff = true <-> exists r, In r (rows df) /\ out_of_range (get eff r).
Proof.
  unfold leaves_range, in_range. rewrite negb_true_iff, forallb_false.
  split; intros [r [Hr H]]; exists r; (split; [exact Hr |]); now apply between_false.
Qed.

(** ** [pp] and the table of the caller *)

Lemma map_result_map {A B C : Type} (g : A -> B) (f : B -> result C) (l : list A) :
  map_result f (map g l) = map_result (fun x => f (g x)) l.
Proof.
  induction l as [| x t IH]; simpl; [reflexivity | now rewrite IH].
Qed.

Lemma map_result_ext {A B : Type} (f f' : A -> result B) (l : list A) :
  (forall x, f x = f' x) -> map_result f l = map_result f' l.
Proof.
  intros H. induction l as [| x t IH]; simpl; [reflexivity | now rewrite H, IH].
Qed.

(** Filling the nulls keeps the keys, so the groups of the filled table
    are the groups of the table, filled. *)
Lemma groupby_fill (efficiencies : list string) (table : list Row) :
  groupby pair_eqb pair_leb key2 (map (fill efficiencies) table) =
  map (fun kg => (fst kg, map (fill efficiencies) (snd kg)))
      (groupby pair_eqb pair_leb key2 table).
Proof.
  unfold groupby. rewrite !map_map.
  replace (map (fun r => key2 (fill efficiencies r)) table) with (map key2 table)
    by (apply map_ext; reflexivity).
  apply map_ext. intros k. simpl. f_equal.
  rewrite filter_map_swap. reflexivity.
Qed.

Lemma filled_fill (efficiencies : list string) (eff : string) (g : list Row) :
  eff = "app eff" \/ eff = "arch eff" ->
  selected efficiencies eff = true ->
  filled eff (map (fill efficiencies) g) = filled eff g.
Proof.
  intros Hc He. unfold filled. rewrite map_map. apply map_ext. intros r.
  destruct Hc as [-> | ->]; unfold fill, get; simpl; now rewrite He.
Qed.

(** The harmonic mean reads a filled group as it reads the group. *)
Lemma hmean_of_group_fill (efficiencies : list string) (k : string * string)
    (g : list Row) :
  hmean_of_group efficiencies (k, map (fill efficiencies) g) =
  hmean_of_group efficiencies (k, g).
Proof.
  destruct k as [p a]. unfold hmean_of_group.
  destruct (selected efficiencies "app eff") eqn:E1;
    destruct (selected efficiencies "arch eff") eqn:E2;
    rewrite ?(filled_fill efficiencies "app eff" g (or_introl eq_refl) E1),
            ?(filled_fill efficiencies "arch eff" g (or_intror eq_refl) E2);
    reflexivity.
Qed.

Lemma aggregate_filled (efficiencies : list string) (table : list Row) :
  map_result (hmean_of_group efficiencies)
             (groupby pair_eqb pair_leb key2 (map (fill efficiencies) table)) =
  map_result (hmean_of_group efficiencies) (groupby pair_eqb pair_leb key2 table).
Proof.
  rewrite groupby_fill, map_result_map. apply map_result_ext.
  intros [k g]. apply hmean_of_group_fill.
Qed.

(** A run of [pp] leaves the table of the caller as it found it, and ends
    as the function [pp] of that table says. *)
Lemma pp_st_spec (lib : pandas) (table : DataFrame) :
  pp_st lib table = (table, pp lib table).
Proof.
  unfold pp_st, pp, st_bind, st_lift, st_ret, table_of, in_place. simpl.
  destruct (_require_columns table ["problem"; "platform"; "application"]);
    [| reflexivity].
  simpl. destruct (List.length (efficiencies_of table) =? 0)%nat; [reflexivity |].
  destruct (_require_numeric table (efficiencies_of table)); [| reflexivity].
  simpl. destruct (check_range table (efficiencies_of table)); [| reflexivity].
  simpl. unfold reset_index. rewrite aggregate_filled.
  destruct (map_result (hmean_of_group (efficiencies_of table)) _) as [aggregated | e];
    [| reflexivity].
  simpl. destruct (reset_index_after_agg lib aggregated); reflexivity.
Qed.

(** * The properties *)

(** C5. On a valid table the rows of the result are ordered by the position
    at which their application first occurs in the application column of
    the input as given, before any deduplication: the rows of one
    application are adjacent, and the applications, repetitions apart, are
    listed in their order of first occurrence in the input. *)
Theorem application_order_preserved (lib : pandas) (df : DataFrame) (out : PPFrame) :
  valid_table df = true -> pp lib df = Ok out ->
  StronglySorted
    (fun a b => index_of a (map application (rows df)) <=
                index_of b (map application (rows df)))
    (map pp_application (pp_rows out)) /\
  unique String.eqb (map pp_application (pp_rows out)) =
  unique String.eqb (map application (rows df)).
Proof.
  intros V E.
  destruct (pp_keys lib df out V E) as [_ K].
  destruct (pp_spec lib df out V E) as [aggregated [-> _]].
  simpl pp_rows in *.
  set (order := unique String.eqb (map application (rows df))) in *.
  pose proof (stable_sort_by_rank (fun r => index_of (pp_application r) order) aggregated)
    as S.
  fold (_sort_by_app_order aggregated order) in S.
  split.
  - apply StronglySorted_map. revert S. apply StronglySorted_impl.
    intros x y. apply index_of_unique_le.
  - apply unique_of_sorted.
    + apply (NoDup_unique String.eqb String.eqb_eq).
    + now apply StronglySorted_map.
    + intros a. unfold order. rewrite (In_unique String.eqb String.eqb_eq). split.
      * intros H. apply in_map_iff in H as [r [<- Hr]].
        apply (in_map pp_key) in Hr. apply K in Hr. tauto.
      * intros H.
        assert (exists p, In p (map problem (rows df))) as [p Hp].
        { apply in_map_iff in H as [r [_ Hr]]. exists (problem r). now apply in_map. }
        assert (In (p, a) (map pp_key (_sort_by_app_order aggregated order))) as I
            by (apply K; auto).
        apply in_map_iff in I as [r [[= _ <-] Hr]]. now apply in_map.
Qed.

Lemma application_order_preserved_witness :
  unique String.eqb
    (map pp_application
       [ mkPPRow "P1" "Y" (Some 0%Q) (Some 0%Q); mkPPRow "P1" "X" (Some (2 # 4)%Q) (Some 0%Q) ]) =
  unique String.eqb (map application (rows two_platforms)).
Proof.
  apply (application_order_preserved KeepsKeyColumns two_platforms
           (mkPPFrame ["problem"; "application"; "app pp"; "arch pp"]
              [ mkPPRow "P1" "Y" (Some 0%Q) (Some 0%Q);
                mkPPRow "P1" "X" (Some (2 # 4)%Q) (Some 0%Q) ])).
  - reflexivity.
  - vm_compute. reflexivity.
Defined.

(** C1. On a valid table, take a problem, a platform and an application
    that each occur in the input.  If every measurement of the application
    on that platform for that problem is null or zero (none at all
    included: the application never ran there), then [pp] returns, the
    result has a row for the (problem, application) pair, and the pp value
    of that pair is zero; no division by zero escapes. *)
Theorem zero_dominance (lib : pandas) (df : DataFrame) (eff p h a : string) :
  valid_table df = true ->
  In eff (efficiencies_of df) ->
  In p (map problem (rows df)) ->
  In h (map platform (rows df)) ->
  In a (map application (rows df)) ->
  (forall r, In r (rows df) -> key3 r = (p, h, a) -> no_efficiency (get eff r)) ->
  exists out,
    pp lib df = Ok out /\
    (exists row, In row (pp_rows out) /\ pp_key row = (p, a)) /\
    forall row, In row (pp_rows out) -> pp_key row = (p, a) ->
      exists v, pp_get eff row = Some v /\ (v == 0)%Q.
Proof.
  intros V He Hp Hh Ha Hz.
  assert (rows df <> []) as Hne by (intros C; rewrite C in Hp; contradiction).
  destruct (pp_returns lib df V Hne) as [out E]. exists out. split; [exact E |].
  pose proof (valid_table_validated df V) as V'.
  destruct (pp_keys lib df out V E) as [_ K]. split.
  - assert (In (p, a) (map pp_key (pp_rows out))) as I by (apply K; auto).
    apply in_map_iff in I as [row [Hk Hrow]]. eauto.
  - intros row Hrow Hk.
    destruct (pp_values lib df out row eff V E Hrow He) as [v [Hv Hm]].
    exists v. split; [exact Hv |]. rewrite Hk in Hm.
    destruct (harmonic_mean_zero
                (filled eff (filter (fun r => pair_eqb (key2 r) (p, a)) (completed df))))
      as [v' [Hm' Hv']].
    + unfold filled. apply Forall_map, Forall_forall. intros r Hr.
      apply filter_In in Hr as [Hr _]. now apply cell_ok_nonneg, (completed_cells df).
    + assert (In (p, h, a) (map key3 (completed df))) as I
          by (apply In_completed_key3; auto).
      apply in_map_iff in I as [r0 [Hk0 Hr0]].
      apply Exists_exists. exists (fillna 0 (get eff r0)). split.
      * unfold filled. apply (in_map (fun r => fillna 0 (get eff r))).
        apply filter_In. split; [exact Hr0 |].
        apply pair_eqb_eq. injection Hk0 as <- _ <-. reflexivity.
      * apply In_complete in Hr0 as [Hr0 | Hr0]; [| rewrite Hr0; reflexivity].
        apply In_max_per_key in Hr0 as [_ Hr0].
        rewrite (Hr0 eff He (efficiencies_of_cases df eff He)).
        match goal with |- (fillna 0 (agg_max ?l) == 0)%Q =>
          pose proof (agg_max_spec l) as S; destruct (agg_max l) as [| m | s]
        end; [reflexivity | | contradiction].
        destruct S as [S _]. apply in_map_iff in S as [r [Hg Hr]].
        apply filter_In in Hr as [Hr Hkr]. apply triple_eqb_eq in Hkr.
        rewrite Hk0 in Hkr. specialize (Hz r Hr Hkr). rewrite Hg in Hz. exact Hz.
    + rewrite Hm in Hm'. injection Hm' as <-. exact Hv'.
Qed.

Lemma zero_dominance_witness :
  exists out,
    pp KeepsKeyColumns two_platforms = Ok out /\
    (exists row, In row (pp_rows out) /\ pp_key row = ("P1", "X")) /\
    forall row, In row (pp_rows out) -> pp_key row = ("P1", "X") ->
      exists v, pp_get "arch eff" row = Some v /\ (v == 0)%Q.
Proof.
  apply (zero_dominance KeepsKeyColumns two_platforms "arch eff" "P1" "A" "X").
  - reflexivity.
  - simpl. auto.
  - simpl. auto.
  - simpl. auto.
  - simpl. auto.
  - intros r H E. simpl in H.
    destruct H as [<- | [<- | [<- | []]]]; try discriminate E.
    simpl. reflexivity.
Defined.

(** C2, as the code has it.  On a valid table the result has exactly one
    row for every pair of a problem of the input and an application of the
    input, whether or not the two occur together in a row of the input, and
    no other row: as many rows as distinct problems times distinct
    applications. *)
Theorem one_row_per_problem_and_application (lib : pandas) (df : DataFrame) (out : PPFrame) :
  valid_table df = true -> pp lib df = Ok out ->
  NoDup (map pp_key (pp_rows out)) /\
  (forall p a, In (p, a) (map pp_key (pp_rows out)) <->
               In p (map problem (rows df)) /\ In a (map application (rows df))) /\
  List.length (pp_rows out) =
  List.length (unique String.eqb (map problem (rows df))) *
  List.length (unique String.eqb (map application (rows df))).
Proof.
  intros V E. destruct (pp_keys lib df out V E) as [N K].
  split; [exact N | split; [exact K |]].
  rewrite <- (length_map pp_key), <- length_prod.
  apply Permutation_length, NoDup_Permutation; [exact N | |].
  - apply NoDup_list_prod; apply (NoDup_unique String.eqb String.eqb_eq).
  - intros [p a]. rewrite K, in_prod_iff, !(In_unique String.eqb String.eqb_eq).
    reflexivity.
Qed.

Lemma one_row_per_problem_and_application_witness :
  List.length
    [ mkPPRow "P1" "X" (Some (1 # 2)%Q) None; mkPPRow "P2" "X" (Some 0%Q) None;
      mkPPRow "P1" "Y" (Some 0%Q) None; mkPPRow "P2" "Y" (Some (1 # 2)%Q) None ] =
  List.length (unique String.eqb (map problem (rows sparse_pairs))) *
  List.length (unique String.eqb (map application (rows sparse_pairs))).
Proof.
  apply (one_row_per_problem_and_application KeepsKeyColumns sparse_pairs
           (mkPPFrame ["problem"; "application"; "app pp"]
              [ mkPPRow "P1" "X" (Some (1 # 2)%Q) None; mkPPRow "P2" "X" (Some 0%Q) None;
                mkPPRow "P1" "Y" (Some 0%Q) None; mkPPRow "P2" "Y" (Some (1 # 2)%Q) None ])).
  - reflexivity.
  - vm_compute. reflexivity.
Defined.

(** C2, as worded, fails.  The table [sparse_pairs] is valid and holds two
    distinct (problem, application) pairs, (P1, X) and (P2, Y); the result
    of [pp] has four rows, two of them for pairs that are in no row of the
    input, whatever the pandas. *)
Lemma one_row_per_input_pair_counterexample :
  valid_table sparse_pairs = true /\
  unique pair_eqb (map key2 (rows sparse_pairs)) = [("P1", "X"); ("P2", "Y")] /\
  forall lib, exists out,
    pp lib sparse_pairs = Ok out /\
    map pp_key (pp_rows out) = [("P1", "X"); ("P2", "X"); ("P1", "Y"); ("P2", "Y")] /\
    List.length (pp_rows out) <>
    List.length (unique pair_eqb (map key2 (rows sparse_pairs))).
Proof.
  split; [reflexivity | split; [reflexivity |]].
  intros lib. destruct lib;
    (eexists; split; [vm_compute; reflexivity |];
     split; [reflexivity | simpl; discriminate]).
Qed.

(** C3, as the code has it.  On a valid table in which a single platform
    occurs, the pp value of a (problem, application) pair that has a
    measurement is that platform's efficiency for the pair: the maximum
    over the pair's measurements, nulls apart, with zero standing for a
    null. *)
Theorem single_platform_identity (lib : pandas) (df : DataFrame) (eff p h a : string) :
  valid_table df = true ->
  In eff (efficiencies_of df) ->
  (forall r, In r (rows df) -> platform r = h) ->
  In (p, h, a) (map key3 (rows df)) ->
  exists out,
    pp lib df = Ok out /\
    (exists row, In row (pp_rows out) /\ pp_key row = (p, a)) /\
    forall row, In row (pp_rows out) -> pp_key row = (p, a) ->
      pp_get eff row =
      Some (fillna 0 (agg_max (map (get eff)
                                   (filter (fun r => triple_eqb (key3 r) (p, h, a))
                                           (rows df))))).
Proof.
  intros V He Hh Hk.
  assert (rows df <> []) as Hne by (intros C; rewrite C in Hk; contradiction).
  destruct (pp_returns lib df V Hne) as [out E]. exists out. split; [exact E |].
  pose proof (valid_table_validated df V) as V'.
  destruct (pp_keys lib df out V E) as [_ K].
  assert (In p (map problem (rows df)) /\ In a (map application (rows df))) as [Hp Ha].
  { apply in_map_iff in Hk as [r [[= <- <- <-] Hr]]. split; now apply in_map. }
  split.
  - assert (In (p, a) (map pp_key (pp_rows out))) as I by (apply K; auto).
    apply in_map_iff in I as [row [Hkr Hrow]]. eauto.
  - intros row Hrow Hkr.
    destruct (pp_values lib df out row eff V E Hrow He) as [v [Hv Hm]].
    rewrite Hv. f_equal. rewrite Hkr in Hm.
    apply In_deduplicated_keys in Hk. apply in_map_iff in Hk as [r0 [Hk0 Hr0]].
    assert (In r0 (completed df)) as Hc by (apply in_or_app; now left).
    rewrite (filter_singleton key3 _ (completed df) r0) in Hm.
    + change (filled eff [r0]) with [fillna 0 (get eff r0)] in Hm.
      apply In_max_per_key in Hr0 as [_ Hr0].
      specialize (Hr0 eff He (efficiencies_of_cases df eff He)).
      rewrite Hk0 in Hr0. rewrite <- Hr0.
      rewrite harmonic_mean_single in Hm; [now injection Hm |].
      now apply cell_ok_nonneg, (completed_cells df).
    + apply NoDup_completed_keys.
    + exact Hc.
    + intros y Hy. rewrite pair_eqb_eq, Hk0.
      assert (platform y = h) as Py.
      { apply (in_map key3) in Hy. unfold key3 at 1 in Hy.
        apply In_completed_key3 in Hy as [_ [Hy _]].
        apply in_map_iff in Hy as [r [<- Hr]]. now apply Hh. }
      unfold key2, key3. rewrite Py. split; [intros [= -> ->] | intros [= -> ->]]; reflexivity.
Qed.

Lemma single_platform_identity_witness :
  exists out,
    pp KeepsKeyColumns repeated_trials = Ok out /\
    (exists row, In row (pp_rows out) /\ pp_key row = ("P1", "X")) /\
    forall row, In row (pp_rows out) -> pp_key row = ("P1", "X") ->
      pp_get "app eff" row = Some (3 # 5)%Q.
Proof.
  apply (single_platform_identity KeepsKeyColumns repeated_trials "app eff" "P1" "A" "X").
  - reflexivity.
  - simpl. auto.
  - intros r H. simpl in H. destruct H as [<- | [<- | []]]; reflexivity.
  - simpl. auto.
Defined.

(** C3, as worded, fails.  In the valid table [other_platform] the pair
    (P1, X) has measurements for platform A only, with efficiency 1; its pp
    value is 0, because platform B is in the table for another
    application; the pandas makes no difference. *)
Lemma single_platform_counterexample :
  valid_table other_platform = true /\
  (forall r, In r (rows other_platform) -> key2 r = ("P1", "X") -> platform r = "A") /\
  map (get "app eff")
      (filter (fun r => pair_eqb (key2 r) ("P1", "X")) (deduplicated other_platform))
    = [Num 1] /\
  forall lib, exists out row,
    pp lib other_platform = Ok out /\
    In row (pp_rows out) /\ pp_key row = ("P1", "X") /\
    pp_get "app eff" row = Some 0%Q /\ ~ (0 == 1)%Q.
Proof.
  split; [reflexivity |]. split.
  { intros r H E. simpl in H. destruct H as [<- | [<- | []]]; [reflexivity | discriminate E]. }
  split; [reflexivity |].
  intros lib. destruct lib;
    (eexists; exists (mkPPRow "P1" "X" (Some 0%Q) None);
     split; [vm_compute; reflexivity |];
     split; [simpl; auto |]; split; [reflexivity |]; split; [reflexivity | discriminate]).
Qed.

(** C4. Before completing and aggregating, [pp] reduces the rows of the
    input to one row per (problem, platform, application) key that occurs
    in it.  In each efficiency column the table has, that row holds the
    maximum of the numbers measured for the key; nulls do not take part,
    and the row holds a null only when the key has no number at all.  On a
    valid table the result of [pp] is computed from this reduced table.
    Two trials at 0.4 and 0.6 for one key reduce to 0.6. *)
Theorem max_deduplication (lib : pandas) (df : DataFrame) :
  NoDup (map key3 (deduplicated df)) /\
  (forall k, In k (map key3 (deduplicated df)) <-> In k (map key3 (rows df))) /\
  (forall r eff, In r (deduplicated df) -> In eff (efficiencies_of df) ->
     match get eff r with
     | Null =>
         forall r' q, In r' (rows df) -> key3 r' = key3 r -> get eff r' <> Num q
     | Num m =>
         (exists r', In r' (rows df) /\ key3 r' = key3 r /\ get eff r' = Num m) /\
         (forall r' q, In r' (rows df) -> key3 r' = key3 r -> get eff r' = Num q ->
                       (q <= m)%Q)
     | NonNumeric _ => False
     end) /\
  (valid_table df = true ->
   pp lib df =
   (aggregated <- map_result (hmean_of_group (efficiencies_of df))
                    (groupby pair_eqb pair_leb key2 (complete (deduplicated df))) ;;
    reset_index_after_agg lib aggregated ;;;
    Ok (mkPPFrame
          (["problem"; "application"] ++ map (replace "eff" "pp") (efficiencies_of df))
          (_sort_by_app_order aggregated
             (unique String.eqb (map application (rows df))))))) /\
  deduplicated repeated_trials = [mkRow "P1" "A" "X" (Num (3 # 5)) Null].
Proof.
  split; [apply NoDup_max_per_key |].
  split; [apply In_deduplicated_keys |].
  split; [| split; [apply pp_valid | reflexivity]].
  intros r eff Hr He.
  apply In_max_per_key in Hr as [_ Hr].
  rewrite (Hr eff He (efficiencies_of_cases df eff He)).
  match goal with |- match agg_max ?l with _ => _ end =>
    pose proof (agg_max_spec l) as S; destruct (agg_max l) as [| m | s]
  end; [| | exact S].
  - intros r' q Hr' Hk E. apply (S q). rewrite <- E.
    apply (in_map (get eff)), filter_In. split; [exact Hr' | now apply triple_eqb_eq].
  - destruct S as [S1 S2]. split.
    + apply in_map_iff in S1 as [r' [E Hr']]. apply filter_In in Hr' as [Hr' Hk].
      apply triple_eqb_eq in Hk. eauto.
    + intros r' q Hr' Hk E. apply S2. rewrite <- E.
      apply (in_map (get eff)), filter_In. split; [exact Hr' | now apply triple_eqb_eq].
Qed.

Lemma max_deduplication_witness :
  match get "app eff" (mkRow "P1" "A" "X" (Num (3 # 5)) Null) with
  | Null =>
      forall r' q, In r' (rows repeated_trials) -> key3 r' = ("P1", "A", "X") ->
                   get "app eff" r' <> Num q
  | Num m =>
      (exists r', In r' (rows repeated_trials) /\ key3 r' = ("P1", "A", "X") /\
                  get "app eff" r' = Num m) /\
      (forall r' q, In r' (rows repeated_trials) -> key3 r' = ("P1", "A", "X") ->
                    get "app eff" r' = Num q -> (q <= m)%Q)
  | NonNumeric _ => False
  end /\
  pp KeepsKeyColumns repeated_trials =
  Ok (mkPPFrame ["problem"; "application"; "app pp"]
        [mkPPRow "P1" "X" (Some (3 # 5)%Q) None]).
Proof.
  split.
  - apply (proj1 (proj2 (proj2 (max_deduplication KeepsKeyColumns repeated_trials)))
             (mkRow "P1" "A" "X" (Num (3 # 5)) Null) "app eff").
    + simpl. auto.
    + simpl. auto.
  - rewrite (proj1 (proj2 (proj2 (proj2 (max_deduplication KeepsKeyColumns repeated_trials)))) eq_refl).
    vm_compute. reflexivity.
Defined.

(** C6. The checks of [pp] come before any aggregation and in a fixed
    order: the key columns, then the presence of an efficiency column, then
    the numeric check of every efficiency column, then the range check.
    The first check that fails raises its error, whatever the later checks
    would have found, and nothing is returned; a table that passes all four
    and has at least one row gets a result. *)
Theorem validation_order (lib : pandas) (df : DataFrame) :
  match find (missing df) key_columns with
  | Some column => pp lib df = Raise (MissingColumnError column)
  | None =>
      match efficiencies_of df with
      | [] => pp lib df = Raise MissingEfficiencyColumnError
      | _ :: _ =>
          match find (holds_non_numeric df) (efficiencies_of df) with
          | Some column => pp lib df = Raise (NonNumericValueError column)
          | None =>
              match find (leaves_range df) (efficiencies_of df) with
              | Some eff => pp lib df = Raise (OutOfRangeError eff)
              | None => rows df <> [] -> exists out, pp lib df = Ok out
              end
          end
      end
  end.
Proof.
  pose proof (pp_checks lib df) as C.
  destruct (find (missing df) key_columns) as [c |] eqn:F1; [exact C |].
  destruct (efficiencies_of df) as [| e es] eqn:E; [exact C |].
  destruct (find (holds_non_numeric df) (e :: es)) as [c |] eqn:F2; [exact C |].
  destruct (find (leaves_range df) (e :: es)) as [c |] eqn:F3; [exact C |].
  intros Hne. apply pp_returns; [| exact Hne].
  apply checks_pass_valid; rewrite ?E; [assumption | congruence | assumption | assumption].
Qed.

Lemma validation_order_witness :
  exists out, pp KeepsKeyColumns two_platforms = Ok out.
Proof.
  refine (validation_order KeepsKeyColumns two_platforms _). discriminate.
Defined.

(** C7. A table with the three key columns and neither "app eff" nor
    "arch eff" makes [pp] raise the missing-efficiency error, whose message
    names both columns; nothing is returned. *)
Theorem missing_efficiency_column (lib : pandas) (df : DataFrame) :
  has_column df "problem" = true ->
  has_column df "platform" = true ->
  has_column df "application" = true ->
  has_column df "app eff" = false ->
  has_column df "arch eff" = false ->
  pp lib df = Raise MissingEfficiencyColumnError /\
  contains "'app eff'" (message MissingEfficiencyColumnError) = true /\
  contains "'arch eff'" (message MissingEfficiencyColumnError) = true.
Proof.
  intros H1 H2 H3 H4 H5. split; [| split; reflexivity].
  rewrite (pp_checks lib df).
  unfold key_columns, missing, efficiencies_of. simpl.
  rewrite H1, H2, H3, H4, H5. reflexivity.
Qed.

Lemma missing_efficiency_column_witness :
  pp KeepsKeyColumns (mkDataFrame ["problem"; "platform"; "application"; "fom"]
        [mkRow "P1" "A" "X" Null Null])
  = Raise MissingEfficiencyColumnError.
Proof.
  apply (missing_efficiency_column KeepsKeyColumns
           (mkDataFrame ["problem"; "platform"; "application"; "fom"]
              [mkRow "P1" "A" "X" Null Null])); reflexivity.
Defined.

(** C8. On a table with the three key columns whose efficiency cells are
    all null or numeric, [pp] raises the range error for an efficiency
    column exactly when an efficiency column of the table holds a number
    below 0 or above 1, and the column that the error names holds such a
    number.  A null never counts as out of range, and neither does 0 or 1:
    the table [boundary_values] gets a result. *)
Theorem range_check (lib : pandas) (df : DataFrame) :
  has_column df "problem" = true ->
  has_column df "platform" = true ->
  has_column df "application" = true ->
  (forall eff r, In eff (efficiencies_of df) -> In r (rows df) ->
                 is_numeric (get eff r) = true) ->
  ((exists eff, In eff (efficiencies_of df) /\ pp lib df = Raise (OutOfRangeError eff)) <->
   (exists eff r, In eff (efficiencies_of df) /\ In r (rows df) /\
                  out_of_range (get eff r))) /\
  (forall eff, In eff (efficiencies_of df) -> pp lib df = Raise (OutOfRangeError eff) ->
               exists r, In r (rows df) /\ out_of_range (get eff r)) /\
  (exists out, pp lib boundary_values = Ok out).
Proof.
  intros H1 H2 H3 Hnum.
  assert (find (missing df) key_columns = None) as F1.
  { unfold key_columns, missing. simpl. now rewrite H1, H2, H3. }
  assert (find (holds_non_numeric df) (efficiencies_of df) = None) as F2.
  { destruct (find (holds_non_numeric df) (efficiencies_of df)) as [c |] eqn:F;
      [| reflexivity].
    apply find_some in F as [Hc F]. unfold holds_non_numeric in F.
    apply negb_true_iff in F. rewrite (proj2 (forallb_forall _ _)) in F; [discriminate |].
    intros r Hr. now apply Hnum. }
  assert (efficiencies_of df <> [] ->
          find (leaves_range df) (efficiencies_of df) = None ->
          valid_table df = true) as Passes.
  { intros He F3. now apply checks_pass_valid. }
  pose proof (pp_checks lib df) as C.
  rewrite F1, F2 in C.
  assert (forall eff, In eff (efficiencies_of df) -> pp lib df = Raise (OutOfRangeError eff) ->
                      exists r, In r (rows df) /\ out_of_range (get eff r)) as Named.
  { intros eff He E.
    destruct (efficiencies_of df) as [| e es] eqn:Effs; [contradiction |].
    destruct (find (leaves_range df) (e :: es)) as [c |] eqn:F3.
    - apply find_some in F3 as [Hc F3]. apply leaves_range_iff in F3.
      rewrite C in E. rewrite <- Effs in He, Hc.
      apply efficiencies_of_cases in He, Hc.
      destruct He as [-> | ->], Hc as [-> | ->]; try exact F3; discriminate E.
    - pose proof (Passes ltac:(discriminate) eq_refl) as V.
      exfalso. apply (valid_no_range_error lib df eff V); [now rewrite Effs | exact E]. }
  split; [split | split; [exact Named |]].
  - intros [eff [He E]]. destruct (Named eff He E) as [r [Hr H]]. eauto.
  - intros [eff [r [He [Hr H]]]].
    assert (leaves_range df eff = true) as L by (apply leaves_range_iff; eauto).
    destruct (efficiencies_of df) as [| e es] eqn:Effs; [contradiction |].
    destruct (find (leaves_range df) (e :: es)) as [c |] eqn:F3.
    + exists c. split; [now apply find_some in F3 | exact C].
    + apply (find_none _ _ F3) in He. congruence.
  - apply pp_returns; [reflexivity | discriminate].
Qed.

Lemma range_check_witness :
  (exists eff, In eff (efficiencies_of percentages) /\
               pp KeepsKeyColumns percentages = Raise (OutOfRangeError eff)) <->
  (exists eff r, In eff (efficiencies_of percentages) /\ In r (rows percentages) /\
                 out_of_range (get eff r)).
Proof.
  apply (range_check KeepsKeyColumns percentages); try reflexivity.
  intros eff r He Hr. simpl in He, Hr.
  destruct He as [<- | [<- | []]]; destruct Hr as [<- | [<- | []]]; reflexivity.
Defined.



(** C10, as the code has it.  A table with the three key columns, at least
    one efficiency column and no row passes the range check and has nothing
    to complete.  What follows is up to the pandas, which the sources do
    not pin.  Where the aggregation of a table without groups keeps the key
    columns, the [reset_index] after it raises and [pp] returns nothing;
    where the keys are in the index only, [pp] returns a table without rows
    whose columns are "problem", "application" and the pp column of each
    efficiency column the input has. *)
Theorem empty_table (lib : pandas) (df : DataFrame) :
  has_column df "problem" = true ->
  has_column df "platform" = true ->
  has_column df "application" = true ->
  efficiencies_of df <> [] ->
  rows df = [] ->
  check_range df (efficiencies_of df) = Ok tt /\
  did_not_run (deduplicated df) = [] /\
  pp lib df =
  match lib with
  | KeepsKeyColumns => Raise (ValueError "cannot insert application, already exists")
  | KeysInIndexOnly =>
      Ok (mkPPFrame
            (["problem"; "application"]
               ++ (if has_column df "app eff" then ["app pp"] else [])
               ++ (if has_column df "arch eff" then ["arch pp"] else []))
            [])
  end.
Proof.
  intros H1 H2 H3 He Hr.
  assert (valid_table df = true) as V.
  { unfold valid_table. rewrite H1, H2, H3, Hr. simpl.
    destruct (efficiencies_of df) as [| e es]; [congruence |].
    simpl. apply forallb_forall. reflexivity. }
  split; [| split].
  - rewrite check_range_find.
    destruct (find (leaves_range df) (efficiencies_of df)) as [c |] eqn:F; [| reflexivity].
    apply find_some in F as [_ F]. unfold leaves_range, in_range in F.
    rewrite Hr in F. discriminate F.
  - unfold deduplicated. rewrite Hr. reflexivity.
  - rewrite (pp_no_rows lib df V Hr). destruct lib; [reflexivity |].
    f_equal. f_equal. simpl. f_equal. f_equal. unfold efficiencies_of.
    destruct (has_column df "app eff"), (has_column df "arch eff"); reflexivity.
Qed.

Lemma empty_table_witness :
  pp KeysInIndexOnly (mkDataFrame ["problem"; "platform"; "application"; "arch eff"] []) =
  Ok (mkPPFrame ["problem"; "application"; "arch pp"] []).
Proof.
  apply (empty_table KeysInIndexOnly
           (mkDataFrame ["problem"; "platform"; "application"; "arch eff"] []));
    try reflexivity.
  discriminate.
Defined.

(** C10, as worded, fails.  The table below has the three key columns, an
    efficiency column and no row; with a pandas whose aggregation of a
    table without groups keeps the key columns, [pp] raises and returns no
    table. *)
Lemma empty_table_counterexample :
  valid_table (mkDataFrame ["problem"; "platform"; "application"; "arch eff"] []) = true /\
  pp KeepsKeyColumns (mkDataFrame ["problem"; "platform"; "application"; "arch eff"] []) =
  Raise (ValueError "cannot insert application, already exists") /\
  ~ exists out,
      pp KeepsKeyColumns (mkDataFrame ["problem"; "platform"; "application"; "arch eff"] [])
      = Ok out.
Proof.
  split; [reflexivity | split; [reflexivity |]].
  intros [out E]. discriminate E.
Qed.

(** * Further properties of [pp] *)

(** ** Which tables get a result *)

(** A table for which [pp] returns is valid. *)
Lemma returned_valid (lib : pandas) (df : DataFrame) (out : PPFrame) :
  pp lib df = Ok out -> valid_table df = true.
Proof.
  intros E. rewrite (pp_checks lib df) in E.
  destruct (find (missing df) key_columns) as [c |] eqn:F1; [discriminate |].
  destruct (efficiencies_of df) as [| e es] eqn:Effs; [discriminate |].
  rewrite <- Effs in E.
  destruct (find (holds_non_numeric df) (efficiencies_of df)) as [c |] eqn:F2;
    [discriminate |].
  destruct (find (leaves_range df) (efficiencies_of df)) as [c |] eqn:F3;
    [discriminate |].
  apply checks_pass_valid; [assumption | congruence | assumption | assumption].
Qed.

(** X1. [pp] returns a table exactly for the valid tables that have at
    least one row: a table that lacks a key column or both efficiency
    columns, or that holds a non-numeric cell or a number outside [[0, 1]]
    in an efficiency column it has, gets no result.  A valid table without
    rows gets one only from a pandas whose aggregation of a table without
    groups leaves the keys in the index. *)
Theorem pp_returns_iff_valid (lib : pandas) (df : DataFrame) :
  (exists out, pp lib df = Ok out) <->
  valid_table df = true /\ (rows df = [] -> lib = KeysInIndexOnly).
Proof.
  split.
  - intros [out E]. pose proof (returned_valid lib df out E) as V.
    split; [exact V |]. intros R. rewrite (pp_no_rows lib df V R) in E.
    destruct lib; [discriminate E | reflexivity].
  - intros [V L]. destruct (rows df) as [| r t] eqn:R.
    + rewrite (pp_no_rows lib df V R), (L eq_refl). eauto.
    + apply pp_returns; [exact V | rewrite R; discriminate].
Qed.

(** X2. The failures of [harmonic_mean] never surface.  Whatever the
    table, [pp] returns, or raises the error of one of its four checks, or,
    on a table without rows, the error of [reset_index]; it never ends in a
    [StatisticsError], because the groups it averages are never empty and
    never hold a negative value. *)
Theorem pp_raises_only_validation_errors (lib : pandas) (df : DataFrame) :
  (exists out, pp lib df = Ok out) \/
  (exists column, pp lib df = Raise (MissingColumnError column)) \/
  pp lib df = Raise MissingEfficiencyColumnError \/
  (exists column, pp lib df = Raise (NonNumericValueError column)) \/
  (exists eff, pp lib df = Raise (OutOfRangeError eff)) \/
  (rows df = [] /\
   pp lib df = Raise (ValueError "cannot insert application, already exists")).
Proof.
  pose proof (pp_checks lib df) as C.
  destruct (find (missing df) key_columns) as [c |] eqn:F1; [right; left; eauto |].
  destruct (efficiencies_of df) as [| e es] eqn:Effs; [right; right; left; exact C |].
  rewrite <- Effs in C.
  destruct (find (holds_non_numeric df) (efficiencies_of df)) as [c |] eqn:F2;
    [right; right; right; left; eauto |].
  destruct (find (leaves_range df) (efficiencies_of df)) as [c |] eqn:F3;
    [right; right; right; right; left; eauto |].
  assert (valid_table df = true) as V
    by (apply checks_pass_valid; [assumption | congruence | assumption | assumption]).
  destruct (rows df) as [| r t] eqn:R.
  - rewrite (pp_no_rows lib df V R). destruct lib.
    + right; right; right; right; right. split; reflexivity.
    + left. eauto.
  - left. apply pp_returns; [exact V | rewrite R; discriminate].
Qed.

(** ** The values of the result *)

Lemma inject_Z_succ (n : nat) :
  (inject_Z (Z.of_nat (S n)) == inject_Z (Z.of_nat n) + 1)%Q.
Proof.
  rewrite Nat2Z.inj_succ. unfold Z.succ. rewrite inject_Z_plus. reflexivity.
Qed.

Lemma reciprocal_ge_1 (x : Q) : (0 < x)%Q -> (x <= 1)%Q -> (1 <= 1 / x)%Q.
Proof.
  intros H0 H1. apply Qle_shift_div_l; [exact H0 |]. now rewrite Qmult_1_l.
Qed.

(** Every value of [[0, 1]] adds at least 1 to the sum of reciprocals. *)
Lemma sum_reciprocals_count (data : list Q) (acc total : Q) :
  Forall (fun x => 0 <= x /\ x <= 1)%Q data ->
  sum_reciprocals data acc = Total total ->
  (acc + inject_Z (Z.of_nat (List.length data)) <= total)%Q.
Proof.
  intros H. revert acc. induction H as [| x t [Hx0 Hx1] Ht IH]; intros acc E.
  - injection E as <-. change (inject_Z (Z.of_nat (List.length (@nil Q)))) with 0%Q. lra.
  - simpl sum_reciprocals in E.
    destruct (Qlt_bool x 0); [discriminate |].
    destruct (Qeq_bool x 0) eqn:Z; [discriminate |].
    assert (0 < x)%Q as Hpos.
    { apply Qle_lteq in Hx0 as [L | L]; [exact L |].
      symmetry in L. apply Qeq_bool_iff in L. congruence. }
    apply IH in E. simpl List.length. rewrite inject_Z_succ.
    pose proof (reciprocal_ge_1 x Hpos Hx1). lra.
Qed.

(** The harmonic mean of values of [[0, 1]] is a value of [[0, 1]]. *)
Lemma harmonic_mean_unit_interval (data : list Q) (v : Q) :
  Forall (fun x => 0 <= x /\ x <= 1)%Q data ->
  harmonic_mean data = Ok v ->
  (0 <= v /\ v <= 1)%Q.
Proof.
  intros H E. destruct data as [| x [| y t]]; [discriminate | |].
  - simpl in E. destruct (Qlt_bool x 0); [discriminate |].
    injection E as <-. now inversion H.
  - unfold harmonic_mean in E.
    destruct (sum_reciprocals (x :: y :: t) 0) as [| | total] eqn:S; [discriminate | |].
    + injection E as <-. lra.
    + destruct (Qle_bool total 0) eqn:T; [discriminate |].
      injection E as <-.
      apply Qle_bool_false in T.
      apply sum_reciprocals_count in S; [| exact H].
      change (0 <= inject_Z (Z.of_nat (List.length (x :: y :: t))) / total /\
              inject_Z (Z.of_nat (List.length (x :: y :: t))) / total <= 1)%Q.
      set (n := inject_Z (Z.of_nat (List.length (x :: y :: t)))) in *.
      assert (0 <= n)%Q as Hn.
      { unfold n. change 0%Q with (inject_Z 0). rewrite <- Zle_Qle. apply Nat2Z.is_nonneg. }
      clearbody n. split.
      * apply Qle_shift_div_l; [exact T | lra].
      * apply Qle_shift_div_r; [exact T | lra].
Qed.

Lemma cell_ok_unit_interval (c : cell) :
  cell_ok c = true -> (0 <= fillna 0 c /\ fillna 0 c <= 1)%Q.
Proof.
  destruct c as [| q | s]; simpl; [intros _; lra | | discriminate].
  unfold between. rewrite andb_true_iff, !Qle_bool_iff. tauto.
Qed.

(** X3. Every performance portability that [pp] returns lies in
    [[0, 1]]. *)
Theorem pp_values_in_unit_interval (lib : pandas) (df : DataFrame) (out : PPFrame) (row : PPRow)
    (eff : string) (v : Q) :
  pp lib df = Ok out ->
  In row (pp_rows out) ->
  In eff (efficiencies_of df) ->
  pp_get eff row = Some v ->
  (0 <= v /\ v <= 1)%Q.
Proof.
  intros E Hrow He Hv.
  assert (valid_table df = true) as V by exact (returned_valid lib df out E).
  destruct (pp_values lib df out row eff V E Hrow He) as [v' [Hv' Hm]].
  rewrite Hv in Hv'. injection Hv' as <-.
  apply harmonic_mean_unit_interval in Hm; [exact Hm |].
  unfold filled. apply Forall_map, Forall_forall. intros r Hr.
  apply filter_In in Hr as [Hr _].
  apply cell_ok_unit_interval, (completed_cells df); auto.
  now apply valid_table_validated.
Qed.

Lemma pp_values_in_unit_interval_witness :
  (0 <= 2 # 4 /\ 2 # 4 <= 1)%Q.
Proof.
  apply (pp_values_in_unit_interval KeepsKeyColumns two_platforms
           (mkPPFrame ["problem"; "application"; "app pp"; "arch pp"]
              [ mkPPRow "P1" "Y" (Some 0%Q) (Some 0%Q);
                mkPPRow "P1" "X" (Some (2 # 4)%Q) (Some 0%Q) ])
           (mkPPRow "P1" "X" (Some (2 # 4)%Q) (Some 0%Q)) "app eff").
  - vm_compute. reflexivity.
  - simpl. auto.
  - simpl. auto.
  - reflexivity.
Defined.

(** ** The completed table *)

Lemma length_product3 (ps hs apps : list string) :
  List.length (product3 ps hs apps) =
  List.length ps * List.length hs * List.length apps.
Proof.
  unfold product3.
  assert (forall p : string,
             List.length (flat_map (fun h => map (fun a => (p, h, a)) apps) hs)
                    = List.length hs * List.length apps) as Inner.
  { intros p. induction hs as [| h t IH]; simpl; [reflexivity |].
    now rewrite length_app, length_map, IH. }
  induction ps as [| p t IH]; simpl; [reflexivity |].
  rewrite length_app, Inner, IH. lia.
Qed.

(** X4. The table that [pp] aggregates holds exactly one row for every
    combination of a problem, a platform and an application of the input:
    its keys are the elements of the product, each once, and its length is
    the product of the three numbers of distinct values. *)
Theorem completed_is_cross_product (df : DataFrame) :
  Permutation (map key3 (completed df))
              (product3 (unique String.eqb (map problem (rows df)))
                        (unique String.eqb (map platform (rows df)))
                        (unique String.eqb (map application (rows df)))) /\
  List.length (completed df) =
  List.length (unique String.eqb (map problem (rows df))) *
  List.length (unique String.eqb (map platform (rows df))) *
  List.length (unique String.eqb (map application (rows df))).
Proof.
  assert (Permutation (map key3 (completed df))
            (product3 (unique String.eqb (map problem (rows df)))
                      (unique String.eqb (map platform (rows df)))
                      (unique String.eqb (map application (rows df))))) as P.
  { apply NoDup_Permutation.
    - apply NoDup_completed_keys.
    - apply NoDup_product3; apply (NoDup_unique String.eqb String.eqb_eq).
    - intros [[p h] a].
      rewrite In_completed_key3, In_product3, !(In_unique String.eqb String.eqb_eq).
      reflexivity. }
  split; [exact P |].
  rewrite <- (length_map key3), (Permutation_length P). apply length_product3.
Qed.

Lemma NoDup_map_filter {A K K' : Type} (f : A -> K) (g : A -> K') (pred : A -> bool)
    (l : list A) :
  NoDup (map f l) ->
  (forall x y, In x l -> In y l -> pred x = true -> pred y = true ->
               g x = g y -> f x = f y) ->
  NoDup (map g (filter pred l)).
Proof.
  induction l as [| x t IH]; simpl; intros N H; [constructor |].
  apply NoDup_cons_iff in N as [Nx Nt].
  assert (NoDup (map g (filter pred t))) as IH'.
  { apply IH; [exact Nt |]. intros y z Hy Hz. apply H; now right. }
  destruct (pred x) eqn:Px; [| exact IH'].
  simpl. constructor; [| exact IH'].
  intros C. apply in_map_iff in C as [y [E Hy]]. apply filter_In in Hy as [Hy Py].
  assert (f x = f y) as F.
  { apply H; [now left | now right | exact Px | exact Py | now symmetry]. }
  apply Nx. rewrite F. now apply in_map.
Qed.

(** X5. When [pp] averages the efficiencies of a (problem, application)
    pair, it averages exactly one row per platform of the input, whether
    the pair was measured on the platform or not. *)
Theorem group_has_one_row_per_platform (df : DataFrame) (p a : string) :
  In p (map problem (rows df)) ->
  In a (map application (rows df)) ->
  Permutation
    (map platform (filter (fun r => pair_eqb (key2 r) (p, a)) (completed df)))
    (unique String.eqb (map platform (rows df))).
Proof.
  intros Hp Ha. apply NoDup_Permutation.
  - apply (NoDup_map_filter key3); [apply NoDup_completed_keys |].
    intros x y _ _ Px Py E. apply pair_eqb_eq in Px, Py.
    unfold key2 in Px, Py. injection Px as X1 X2. injection Py as Y1 Y2.
    unfold key3. congruence.
  - apply (NoDup_unique String.eqb String.eqb_eq).
  - intros h. rewrite (In_unique String.eqb String.eqb_eq). split.
    + intros H. apply in_map_iff in H as [r [<- Hr]]. apply filter_In in Hr as [Hr _].
      apply (in_map key3) in Hr. unfold key3 at 1 in Hr.
      apply In_completed_key3 in Hr. tauto.
    + intros Hh.
      assert (In (p, h, a) (map key3 (completed df))) as I
          by (apply In_completed_key3; auto).
      apply in_map_iff in I as [r [[= <- <- <-] Hr]].
      apply in_map, filter_In. split; [exact Hr | now apply pair_eqb_eq].
Qed.

Lemma group_has_one_row_per_platform_witness :
  Permutation
    (map platform
       (filter (fun r => pair_eqb (key2 r) ("P1", "Y")) (completed two_platforms)))
    (unique String.eqb (map platform (rows two_platforms))).
Proof.
  apply (group_has_one_row_per_platform two_platforms "P1" "Y"); simpl; auto.
Defined.

Lemma flat_map_nil {A B : Type} (f : A -> list B) (l : list A) :
  (forall x, In x l -> f x = []) -> flat_map f l = [].
Proof.
  induction l as [| x t IH]; intros H; simpl; [reflexivity |].
  rewrite (H x (or_introl eq_refl)). apply IH. intros; apply H; now right.
Qed.

Lemma In_complete_column (f : Row -> string) (g : string * string * string -> string)
    (table : list Row) (x : string) :
  (forall r, f r = g (key3 r)) ->
  (forall p h a, In (p, h, a) (map key3 (complete table)) -> In (g (p, h, a)) (map f table)) ->
  In x (map f (complete table)) -> In x (map f table).
Proof.
  intros Hf Hg H. apply in_map_iff in H as [r [<- Hr]].
  apply (in_map key3) in Hr. rewrite Hf.
  destruct (key3 r) as [[p h] a] eqn:K. now apply Hg.
Qed.

(** X6. Completing is idempotent: a table that has a row for every
    combination gets no further "did not run" row, so completing a
    completed table changes nothing. *)
Theorem complete_idempotent (table : list Row) :
  did_not_run (complete table) = [] /\
  complete (complete table) = complete table.
Proof.
  assert (did_not_run (complete table) = []) as D.
  { unfold did_not_run at 1. apply flat_map_nil.
    intros [[p h] a] Hk. apply In_product3 in Hk as [Hp [Hh Ha]].
    rewrite (In_unique String.eqb String.eqb_eq) in Hp, Hh, Ha.
    assert (In (p, h, a) (map key3 (complete table))) as I.
    { apply In_complete_keys. repeat split.
      - apply (In_complete_column problem (fun k => fst (fst k))); [reflexivity | | exact Hp].
        intros p' h' a' H. now apply In_complete_keys in H.
      - apply (In_complete_column platform (fun k => snd (fst k))); [reflexivity | | exact Hh].
        intros p' h' a' H. now apply In_complete_keys in H.
      - apply (In_complete_column application snd); [reflexivity | | exact Ha].
        intros p' h' a' H. now apply In_complete_keys in H. }
    destruct (empty (slice (complete table) (p, h, a))) eqn:E; [| reflexivity].
    apply empty_slice in E. contradiction. }
  split; [exact D |].
  unfold complete at 1. rewrite D. apply app_nil_r.
Qed.

(** X7. In the table that [pp] aggregates, a combination that the input
    measured holds the maximum of its measurements, and a combination that
    the input did not measure holds a null; a "did not run" row never
    replaces a measurement. *)
Theorem completed_cell (df : DataFrame) (r : Row) (eff : string) :
  In r (completed df) ->
  In eff (efficiencies_of df) ->
  (In (key3 r) (map key3 (rows df)) ->
   get eff r =
   agg_max (map (get eff) (filter (fun r' => triple_eqb (key3 r') (key3 r)) (rows df)))) /\
  (~ In (key3 r) (map key3 (rows df)) -> get eff r = Null).
Proof.
  intros Hr He. unfold completed, complete in Hr. apply in_app_or in Hr as [Hr | Hr].
  - apply In_max_per_key in Hr as [Hk Hr]. split.
    + intros _. apply Hr; [exact He | now apply (efficiencies_of_cases df)].
    + intros N. contradiction.
  - apply In_did_not_run in Hr as [Hr N]. split.
    + intros Hk. apply In_deduplicated_keys in Hk. contradiction.
    + intros _. rewrite Hr. unfold get; simpl. now destruct (eff =? "app eff").
Qed.

Lemma completed_cell_witness :
  (In ("P1", "B", "Y") (map key3 (rows two_platforms)) ->
   get "app eff" (mkRow "P1" "B" "Y" Null Null) =
   agg_max (map (get "app eff")
                (filter (fun r' => triple_eqb (key3 r') ("P1", "B", "Y"))
                        (rows two_platforms)))) /\
  (~ In ("P1", "B", "Y") (map key3 (rows two_platforms)) ->
   get "app eff" (mkRow "P1" "B" "Y" Null Null) = Null).
Proof.
  apply (completed_cell two_platforms (mkRow "P1" "B" "Y" Null Null) "app eff").
  - vm_compute. auto.
  - simpl. auto.
Defined.

(** ** The columns of the result *)

Lemma pp_rows_from_groups (lib : pandas) (df : DataFrame) (out : PPFrame) (row : PPRow) :
  valid_table df = true -> pp lib df = Ok out -> In row (pp_rows out) ->
  exists g, hmean_of_group (efficiencies_of df) (pp_key row, g) = Ok row.
Proof.
  intros V E Hrow. rewrite (pp_valid lib df V) in E.
  apply bind_ok in E as [aggregated [M E]].
  apply bind_ok in E as [u [_ E]]. injection E as <-. simpl in Hrow.
  apply In_sort_by_app_order in Hrow.
  apply map_result_Forall2 in M.
  destruct (Forall2_In_r _ _ _ _ M Hrow) as [[[p a] g] [_ H]].
  exists g. pose proof (hmean_of_group_ok _ _ _ _ _ H) as [K _].
  rewrite K. exact H.
Qed.

Lemma hmean_of_group_columns (efficiencies : list string) (k : string * string)
    (g : list Row) (row : PPRow) :
  hmean_of_group efficiencies (k, g) = Ok row ->
  (app_pp row = None <-> selected efficiencies "app eff" = false) /\
  (arch_pp row = None <-> selected efficiencies "arch eff" = false).
Proof.
  destruct k as [p a]. unfold hmean_of_group. intros H.
  apply bind_ok in H as [x [Hx H]]. apply bind_ok in H as [y [Hy H]].
  injection H as <-. simpl. split.
  - destruct (selected efficiencies "app eff").
    + apply bind_ok in Hx as [v [_ [= <-]]]. split; discriminate.
    + injection Hx as <-. split; reflexivity.
  - destruct (selected efficiencies "arch eff").
    + apply bind_ok in Hy as [v [_ [= <-]]]. split; discriminate.
    + injection Hy as <-. split; reflexivity.
Qed.

Lemma selected_efficiencies_of (df : DataFrame) :
  selected (efficiencies_of df) "app eff" = has_column df "app eff" /\
  selected (efficiencies_of df) "arch eff" = has_column df "arch eff".
Proof.
  unfold efficiencies_of.
  destruct (has_column df "app eff"), (has_column df "arch eff"); split; reflexivity.
Qed.

(** X8. The header and the rows of a result agree with the input: the
    result lists "app pp" exactly when the input has "app eff" and
    "arch pp" exactly when it has "arch eff", after "problem" and
    "application", and every row has a value in the pp columns listed and
    none in the other. *)
Theorem result_columns (lib : pandas) (df : DataFrame) (out : PPFrame) :
  pp lib df = Ok out ->
  pp_columns out =
    (["problem"; "application"]
       ++ (if has_column df "app eff" then ["app pp"] else [])
       ++ (if has_column df "arch eff" then ["arch pp"] else []))%list /\
  forall row, In row (pp_rows out) ->
    (app_pp row = None <-> has_column df "app eff" = false) /\
    (arch_pp row = None <-> has_column df "arch eff" = false).
Proof.
  intros E.
  assert (valid_table df = true) as V by exact (returned_valid lib df out E).
  split.
  - rewrite (pp_valid lib df V) in E. apply bind_ok in E as [aggregated [_ E]].
    apply bind_ok in E as [u [_ E]].
    injection E as <-. simpl. f_equal. f_equal. unfold efficiencies_of.
    destruct (has_column df "app eff"), (has_column df "arch eff"); reflexivity.
  - intros row Hrow.
    destruct (pp_rows_from_groups lib df out row V E Hrow) as [g H].
    apply hmean_of_group_columns in H.
    destruct (selected_efficiencies_of df) as [<- <-]. exact H.
Qed.

Lemma result_columns_witness :
  pp_columns (mkPPFrame ["problem"; "application"; "app pp"]
                [mkPPRow "P1" "X" (Some (3 # 5)%Q) None]) =
    (["problem"; "application"]
       ++ (if has_column repeated_trials "app eff" then ["app pp"] else [])
       ++ (if has_column repeated_trials "arch eff" then ["arch pp"] else []))%list.
Proof.
  apply (result_columns KeepsKeyColumns repeated_trials
           (mkPPFrame ["problem"; "application"; "app pp"]
              [mkPPRow "P1" "X" (Some (3 # 5)%Q) None])).
  vm_compute. reflexivity.
Defined.

(** ** Tables that agree on their keys *)

Section KeyAgreement.
Variables table table' : list Row.
Hypothesis same_keys : map key3 table = map key3 table'.

Lemma same_keys_column {B : Type} (g : string * string * string -> B) :
  map (fun r => g (key3 r)) table = map (fun r => g (key3 r)) table'.
Proof.
  rewrite <- (map_map key3 g table), <- (map_map key3 g table'). now rewrite same_keys.
Qed.

Lemma same_keys_empty_slice (k : string * string * string) :
  empty (slice table k) = empty (slice table' k).
Proof.
  pose proof (empty_slice table k) as H. pose proof (empty_slice table' k) as H'.
  rewrite same_keys in H.
  destruct (empty (slice table k)), (empty (slice table' k)); try reflexivity.
  - symmetry. apply H'. now apply H.
  - apply H. now apply H'.
Qed.

Lemma same_keys_complete : map key3 (complete table) = map key3 (complete table').
Proof.
  unfold complete. rewrite !map_app, same_keys, !did_not_run_keys. f_equal.
  rewrite (same_keys_column (fun k => fst (fst k)) : map problem table = map problem table').
  rewrite (same_keys_column (fun k => snd (fst k)) : map platform table = map platform table').
  rewrite (same_keys_column snd : map application table = map application table').
  apply filter_ext. apply same_keys_empty_slice.
Qed.
End KeyAgreement.

(** ** The two efficiency columns do not interact *)

Lemma keyed_keys (eff : string) (table : list Row) :
  map key3 table = map fst (map (keyed eff) table).
Proof. rewrite map_map. reflexivity. Qed.

Lemma keyed_group (eff : string) (f : string * string * string -> bool)
    (table : list Row) :
  map (get eff) (filter (fun r => f (key3 r)) table) =
  map snd (filter (fun x => f (fst x)) (map (keyed eff) table)).
Proof. rewrite filter_map_swap, map_map. reflexivity. Qed.

Lemma max_per_key_keyed (efficiencies : list string) (eff : string) (table : list Row) :
  eff = "app eff" \/ eff = "arch eff" ->
  In eff efficiencies ->
  map (keyed eff) (max_per_key efficiencies table) =
  map (fun kg => (fst kg, agg_max (map (get eff) (snd kg))))
      (groupby triple_eqb triple_leb key3 table).
Proof.
  intros Hc He. apply selected_In in He.
  unfold max_per_key. rewrite map_map. apply map_ext. intros [[[p h] a] g].
  unfold keyed. f_equal.
  destruct Hc as [-> | ->]; unfold get at 1; simpl; now rewrite He.
Qed.

Section Agreement.
Variable eff : string.
Variables table table' : list Row.
Hypothesis agree : map (keyed eff) table = map (keyed eff) table'.

Lemma agree_keys : map key3 table = map key3 table'.
Proof. now rewrite !(keyed_keys eff), agree. Qed.

Lemma agree_group (f : string * string * string -> bool) :
  map (get eff) (filter (fun r => f (key3 r)) table) =
  map (get eff) (filter (fun r => f (key3 r)) table').
Proof. now rewrite !keyed_group, agree. Qed.

Lemma agree_column {B : Type} (g : string * string * string -> B) :
  map (fun r => g (key3 r)) table = map (fun r => g (key3 r)) table'.
Proof. exact (same_keys_column table table' agree_keys g). Qed.

Lemma agree_max_per_key (efficiencies efficiencies' : list string) :
  eff = "app eff" \/ eff = "arch eff" ->
  In eff efficiencies -> In eff efficiencies' ->
  map (keyed eff) (max_per_key efficiencies table) =
  map (keyed eff) (max_per_key efficiencies' table').
Proof.
  intros Hc He He'.
  rewrite !(max_per_key_keyed _ eff) by assumption.
  unfold groupby. rewrite !map_map, <- agree_keys.
  apply map_ext. intros k. simpl. f_equal. f_equal.
  apply (agree_group (fun k' => triple_eqb k' k)).
Qed.

Lemma agree_empty_slice (k : string * string * string) :
  empty (slice table k) = empty (slice table' k).
Proof. exact (same_keys_empty_slice table table' agree_keys k). Qed.

Lemma agree_complete :
  map (keyed eff) (complete table) = map (keyed eff) (complete table').
Proof.
  unfold complete. rewrite !map_app, agree. f_equal.
  assert (forall t, map (keyed eff) (did_not_run t) =
                    map (fun k => (k, Null)) (map key3 (did_not_run t))) as N.
  { intros t. rewrite map_map. apply map_ext_in. intros r Hr.
    apply In_did_not_run in Hr as [-> _]. unfold keyed, get. simpl.
    now destruct (eff =? "app eff"). }
  rewrite !N, !did_not_run_keys. f_equal.
  rewrite (agree_column (fun k => fst (fst k)) : map problem table = map problem table').
  rewrite (agree_column (fun k => snd (fst k)) : map platform table = map platform table').
  rewrite (agree_column snd : map application table = map application table').
  apply filter_ext. apply agree_empty_slice.
Qed.
End Agreement.

Lemma insert_sorted_map {A B : Type} (f : A -> B) (leb : A -> A -> bool)
    (leb' : B -> B -> bool) (x : A) (l : list A) :
  (forall a b, leb a b = leb' (f a) (f b)) ->
  map f (insert_sorted leb x l) = insert_sorted leb' (f x) (map f l).
Proof.
  intros H. induction l as [| y t IH]; simpl; [reflexivity |].
  rewrite <- H. destruct (leb x y); simpl; [reflexivity | now rewrite IH].
Qed.

Lemma stable_sort_map {A B : Type} (f : A -> B) (leb : A -> A -> bool)
    (leb' : B -> B -> bool) (l : list A) :
  (forall a b, leb a b = leb' (f a) (f b)) ->
  map f (stable_sort leb l) = stable_sort leb' (map f l).
Proof.
  intros H. induction l as [| x t IH]; simpl; [reflexivity |].
  now rewrite (insert_sorted_map f leb leb'), IH.
Qed.

(** Two lists of rows with the same keys, whose values are fixed by the
    key, say the same. *)
Lemma pp_keyed_determined (eff : string) (R : string * string -> option Q -> Prop)
    (l l' : list PPRow) :
  (forall k x y, R k x -> R k y -> x = y) ->
  map pp_key l = map pp_key l' ->
  (forall row, In row l -> R (pp_key row) (pp_get eff row)) ->
  (forall row, In row l' -> R (pp_key row) (pp_get eff row)) ->
  map (pp_keyed eff) l = map (pp_keyed eff) l'.
Proof.
  intros F. revert l'. induction l as [| x t IH]; intros [| y t'] K H H';
    try discriminate; [reflexivity |].
  simpl in K.
  assert (pp_key x = pp_key y /\ map pp_key t = map pp_key t') as [K1 K2]
      by (split; congruence).
  simpl. f_equal.
  - unfold pp_keyed. rewrite K1. f_equal.
    apply (F (pp_key y)); [rewrite <- K1 |]; [apply H | apply H']; now left.
  - apply IH; [exact K2 | |]; intros; [apply H | apply H']; now right.
Qed.

(** X9. A pp column depends on the key columns and on its own efficiency
    column only.  When two tables agree, row by row, on the keys and on one
    efficiency column, and [pp] returns for both, the two results agree,
    row by row, on the keys and on the pp column of that efficiency:
    whether the other efficiency column is there, and what it holds, makes
    no difference. *)
Theorem pp_column_depends_on_its_efficiency (lib : pandas) (df df' : DataFrame) (eff : string)
    (out out' : PPFrame) :
  map (keyed eff) (rows df) = map (keyed eff) (rows df') ->
  In eff (efficiencies_of df) ->
  In eff (efficiencies_of df') ->
  pp lib df = Ok out ->
  pp lib df' = Ok out' ->
  map (pp_keyed eff) (pp_rows out) = map (pp_keyed eff) (pp_rows out').
Proof.
  intros A He He' E E'.
  assert (valid_table df = true) as V by exact (returned_valid lib df out E).
  assert (valid_table df' = true) as V' by exact (returned_valid lib df' out' E').
  assert (map (keyed eff) (completed df) = map (keyed eff) (completed df')) as AC.
  { apply agree_complete, agree_max_per_key; auto.
    now apply (efficiencies_of_cases df). }
  destruct (pp_spec lib df out V E) as [a [-> [K H]]].
  destruct (pp_spec lib df' out' V' E') as [a' [-> [K' H']]].
  simpl pp_rows.
  replace (map application (rows df')) with (map application (rows df))
    by exact (agree_column eff _ _ A snd).
  set (order := unique String.eqb (map application (rows df))).
  unfold _sort_by_app_order.
  rewrite !(stable_sort_map (pp_keyed eff) _
              (fun x y => (index_of (snd (fst x)) order <=? index_of (snd (fst y)) order)%nat))
    by reflexivity.
  f_equal.
  apply (pp_keyed_determined eff
           (fun k x => exists v, x = Some v /\
              harmonic_mean
                (filled eff (filter (fun r => pair_eqb (key2 r) k) (completed df))) = Ok v)).
  - intros k x y [v [-> Hv]] [w [-> Hw]]. congruence.
  - rewrite K, K'.
    now rewrite (agree_column eff _ _ AC (fun k => (fst (fst k), snd k))
                 : map key2 (completed df) = map key2 (completed df')).
  - intros row Hrow. destruct (H row Hrow eff He) as [v [Hv Hm]]. eauto.
  - intros row Hrow. destruct (H' row Hrow eff He') as [v [Hv Hm]].
    exists v. split; [exact Hv |]. rewrite <- Hm. unfold filled.
    rewrite <- !(map_map (get eff) (fillna 0)). f_equal. f_equal.
    exact (agree_group eff _ _ AC
             (fun k => pair_eqb (fst (fst k), snd k) (pp_key row))).
Qed.

Lemma pp_column_depends_on_its_efficiency_witness :
  map (pp_keyed "app eff")
      [ mkPPRow "P1" "Y" (Some 0%Q) (Some 0%Q);
        mkPPRow "P1" "X" (Some (2 # 4)%Q) (Some 0%Q) ] =
  map (pp_keyed "app eff")
      [ mkPPRow "P1" "Y" (Some 0%Q) None;
        mkPPRow "P1" "X" (Some (2 # 4)%Q) None ].
Proof.
  apply (pp_column_depends_on_its_efficiency KeepsKeyColumns
           two_platforms
           (mkDataFrame ["problem"; "platform"; "application"; "app eff"]
              [ mkRow "P1" "A" "Y" (Num (1 # 2)) Null;
                mkRow "P1" "A" "X" (Num (1 # 2)) Null;
                mkRow "P1" "B" "X" (Num (1 # 2)) Null ])
           "app eff"
           (mkPPFrame ["problem"; "application"; "app pp"; "arch pp"]
              [ mkPPRow "P1" "Y" (Some 0%Q) (Some 0%Q);
                mkPPRow "P1" "X" (Some (2 # 4)%Q) (Some 0%Q) ])
           (mkPPFrame ["problem"; "application"; "app pp"]
              [ mkPPRow "P1" "Y" (Some 0%Q) None;
                mkPPRow "P1" "X" (Some (2 # 4)%Q) None ])).
  - reflexivity.
  - simpl. auto.
  - simpl. auto.
  - vm_compute. reflexivity.
  - vm_compute. reflexivity.
Defined.

(** ** Which column a range error names *)

(** X10. The range check takes "app eff" first: when the table has the key
    columns and numeric efficiency cells, and "app eff" holds a number
    outside [[0, 1]], the error names "app eff", whether or not "arch eff"
    breaks the range as well. *)
Theorem range_error_names_app_eff_first (lib : pandas) (df : DataFrame) :
  has_column df "problem" = true ->
  has_column df "platform" = true ->
  has_column df "application" = true ->
  has_column df "app eff" = true ->
  (forall eff r, In eff (efficiencies_of df) -> In r (rows df) ->
                 is_numeric (get eff r) = true) ->
  (exists r, In r (rows df) /\ out_of_range (get "app eff" r)) ->
  pp lib df = Raise (OutOfRangeError "app eff").
Proof.
  intros H1 H2 H3 H4 Hnum Hout.
  assert (find (holds_non_numeric df) (efficiencies_of df) = None) as F2.
  { destruct (find (holds_non_numeric df) (efficiencies_of df)) as [c |] eqn:F;
      [| reflexivity].
    apply find_some in F as [Hc F]. unfold holds_non_numeric in F.
    apply negb_true_iff in F. rewrite (proj2 (forallb_forall _ _)) in F; [discriminate |].
    intros r Hr. now apply Hnum. }
  apply leaves_range_iff in Hout.
  rewrite (pp_checks lib df), F2.
  unfold key_columns, missing, efficiencies_of. simpl.
  rewrite H1, H2, H3, H4. simpl. now rewrite Hout.
Qed.

Lemma range_error_names_app_eff_first_witness :
  pp KeepsKeyColumns (mkDataFrame ["problem"; "platform"; "application"; "app eff"; "arch eff"]
        [ mkRow "P1" "A" "X" (Num 75) (Num 50);
          mkRow "P1" "B" "X" Null (Num (1 # 4)) ])
  = Raise (OutOfRangeError "app eff").
Proof.
  apply (range_error_names_app_eff_first KeepsKeyColumns
           (mkDataFrame ["problem"; "platform"; "application"; "app eff"; "arch eff"]
              [ mkRow "P1" "A" "X" (Num 75) (Num 50);
                mkRow "P1" "B" "X" Null (Num (1 # 4)) ])); try reflexivity.
  - intros eff r He Hr. simpl in He, Hr.
    destruct He as [<- | [<- | []]]; destruct Hr as [<- | [<- | []]]; reflexivity.
  - exists (mkRow "P1" "A" "X" (Num 75) (Num 50)). split; [simpl; auto |].
    exists 75%Q. split; [reflexivity | right; reflexivity].
Defined.

(** ** The rows of the result depend on the key columns only *)

(** X11. Which rows the result has, and in which order, depends on the key
    columns of the input only: two tables with the same sequence of
    (problem, platform, application) keys for which [pp] returns get results
    with the same sequence of (problem, application) keys, whatever the
    efficiencies are and whichever efficiency columns the tables have. *)
Theorem result_keys_depend_on_input_keys (lib : pandas) (df df' : DataFrame) (out out' : PPFrame) :
  map key3 (rows df) = map key3 (rows df') ->
  pp lib df = Ok out ->
  pp lib df' = Ok out' ->
  map pp_key (pp_rows out) = map pp_key (pp_rows out').
Proof.
  intros A E E'.
  pose proof (returned_valid lib df out E) as V.
  pose proof (returned_valid lib df' out' E') as V'.
  destruct (pp_spec lib df out V E) as [a [-> [K _]]].
  destruct (pp_spec lib df' out' V' E') as [a' [-> [K' _]]].
  simpl pp_rows.
  replace (map application (rows df')) with (map application (rows df))
    by exact (same_keys_column _ _ A snd).
  set (order := unique String.eqb (map application (rows df))).
  unfold _sort_by_app_order.
  rewrite !(stable_sort_map pp_key _
              (fun x y => (index_of (snd x) order <=? index_of (snd y) order)%nat))
    by reflexivity.
  f_equal. rewrite K, K'. f_equal. f_equal.
  assert (map key3 (completed df) = map key3 (completed df')) as AC.
  { apply same_keys_complete. unfold deduplicated.
    now rewrite !max_per_key_keys, A. }
  exact (same_keys_column _ _ AC (fun k => (fst (fst k), snd k))).
Qed.

Lemma result_keys_depend_on_input_keys_witness :
  map pp_key [ mkPPRow "P1" "Y" (Some 0%Q) (Some 0%Q);
               mkPPRow "P1" "X" (Some (2 # 4)%Q) (Some 0%Q) ] =
  map pp_key [ mkPPRow "P1" "Y" None (Some 0%Q);
               mkPPRow "P1" "X" None (Some (2 # 2)%Q) ].
Proof.
  apply (result_keys_depend_on_input_keys KeepsKeyColumns
           two_platforms
           (mkDataFrame ["problem"; "platform"; "application"; "arch eff"]
              [ mkRow "P1" "A" "Y" Null (Num 1);
                mkRow "P1" "A" "X" Null (Num 1);
                mkRow "P1" "B" "X" Null (Num 1) ])
           (mkPPFrame ["problem"; "application"; "app pp"; "arch pp"]
              [ mkPPRow "P1" "Y" (Some 0%Q) (Some 0%Q);
                mkPPRow "P1" "X" (Some (2 # 4)%Q) (Some 0%Q) ])
           (mkPPFrame ["problem"; "application"; "arch pp"]
              [ mkPPRow "P1" "Y" None (Some 0%Q);
                mkPPRow "P1" "X" None (Some (2 # 2)%Q) ])).
  - reflexivity.
  - vm_compute. reflexivity.
  - vm_compute. reflexivity.
Defined.
